(** * Parallel NEB pipeline orchestrator: per-item executor and batch dispatcher

    Embedding of [script.py]: [run_adsorbate_pipeline] (the per-item
    executor) and [run_adsorbate_list_parallel] (the batch dispatcher).

    The script only sequences calls to external collaborators
    ([model.neb]) and to the Python runtime ([os], [print],
    [multiprocessing]).  The embedding therefore has three layers:

    - [Py]: the part of the Python runtime the script relies on
      (exceptions, [os.path.join], [os.makedirs]); [print] and the pool
      of worker processes come with the semantics;
    - the script itself, written as a program over external calls, each
      call carrying the arguments the script passes;
    - an executable semantics: every call is answered by an environment
      that either returns a value or raises, and changes the world. *)

From Stdlib Require Import ZArith Lia Ascii String.
From stdpp Require Import base strings list gmap fin_maps pretty.

Open Scope string_scope.
Open Scope list_scope.

(** ** The Python runtime, as far as the script uses it *)

Module Py.

(** Built-in exception hierarchy: [BaseException] has exactly three
    direct subclasses besides [Exception]; every other class derives
    from [Exception]. *)
Inductive exn_class : Type :=
| SystemExit
| KeyboardInterrupt
| GeneratorExit
| ExceptionSubclass (name : string).

(** An exception object: its class, and what [str(e)] does.  [str(e)]
    runs the object's [__str__], which returns a text or raises in its
    turn. *)
Inductive exn : Type :=
| Exn (cls : exn_class) (msg : string)
| Unprintable (cls : exn_class) (raised : exn).

Definition exn_cls (e : exn) : exn_class :=
  match e with
  | Exn cls _ | Unprintable cls _ => cls
  end.

(** [str(e)]. *)
Definition exn_str (e : exn) : exn + string :=
  match e with
  | Exn _ msg => inr msg
  | Unprintable _ raised => inl raised
  end.

(** [isinstance(e, Exception)]: what an [except Exception] clause
    matches. *)
Definition is_Exception (e : exn) : bool :=
  match exn_cls e with
  | ExceptionSubclass _ => true
  | _ => false
  end.

(** [OSError]s print as ["[Errno n] text: 'path'"]. *)
Definition FileExistsError (path : string) : exn :=
  Exn (ExceptionSubclass "FileExistsError")
    ("[Errno 17] File exists: '" +:+ path +:+ "'").
Definition NotADirectoryError (path : string) : exn :=
  Exn (ExceptionSubclass "NotADirectoryError")
    ("[Errno 20] Not a directory: '" +:+ path +:+ "'").
Definition FileNotFoundError (path : string) : exn :=
  Exn (ExceptionSubclass "FileNotFoundError")
    ("[Errno 2] No such file or directory: '" +:+ path +:+ "'").
Definition ValueError (msg : string) : exn :=
  Exn (ExceptionSubclass "ValueError") msg.

(** The newline character of ["\n"]. *)
Definition nl : string := String "010"%char EmptyString.

(** *** [os.path.join] (posixpath) for two arguments

<<
    if b.startswith(sep):                path = b
    elif not path or path.endswith(sep): path += b
    else:                                path += sep + b
>> *)
Fixpoint endswith_sep (s : string) : bool :=
  match s with
  | EmptyString => false
  | String c EmptyString => bool_decide (c = "/"%char)
  | String _ s' => endswith_sep s'
  end.

Definition startswith_sep (s : string) : bool :=
  match s with
  | String c _ => bool_decide (c = "/"%char)
  | EmptyString => false
  end.

Definition os_path_join (a b : string) : string :=
  if startswith_sep b then b
  else if bool_decide (a = "") || endswith_sep a then a +:+ b
  else a +:+ "/" +:+ b.

(** *** The file system

    A path string resolves to its list of components: it is cut at
    every ['/'], and empty components and ["."] are dropped.  The
    working directory is taken to be the root, so the empty list is the
    root; [".."] and symbolic links are not interpreted. *)
Fixpoint split_sep (acc : string) (s : string) : list string :=
  match s with
  | EmptyString => [acc]
  | String c s' =>
      if bool_decide (c = "/"%char) then acc :: split_sep "" s'
      else split_sep (acc +:+ String c EmptyString) s'
  end.

Definition keep_component (c : string) : bool :=
  negb (bool_decide (c = "")) && negb (bool_decide (c = ".")).

Definition resolve (name : string) : list string :=
  List.filter keep_component (split_sep "" name).

Inductive node : Type := Dir | File.

(** The root is always a directory and is not stored. *)
Definition FS : Type := gmap (list string) node.

(** The path of a list of components, as it shows in error messages. *)
Fixpoint join_sep (p : list string) : string :=
  match p with
  | [] => ""
  | [c] => c
  | c :: p' => c +:+ "/" +:+ join_sep p'
  end.

(** *** [os.makedirs(name, exist_ok=...)]

    Walks the components of [name] from the root: a missing component
    is created as a directory, an existing directory is entered, and a
    regular file in the way raises.  When the leaf already exists as a
    directory, the call returns if [exist_ok] and raises
    [FileExistsError] otherwise.  Directories created before a failure
    stay.  Permissions, quotas and the like are not modelled: a regular
    file in the way is the only cause of failure.  The path in an error
    message is the components joined by ['/'], which is the text Python
    shows when [name] has no empty component, ["."] or trailing ['/']. *)
Fixpoint mkdir_walk (exist_ok : bool) (pre rest : list string) (fs : FS)
  : (exn + unit) * FS :=
  match rest with
  | [] => (if exist_ok then inr tt else inl (FileExistsError (join_sep pre)),
           fs)
  | c :: rest' =>
      let p := pre ++ [c] in
      match fs !! p with
      | Some Dir => mkdir_walk exist_ok p rest' fs
      | Some File =>
          (inl (match rest' with
                | [] => FileExistsError (join_sep p)
                | c' :: _ => NotADirectoryError (join_sep (p ++ [c']))
                end), fs)
      | None =>
          let fs' := <[p := Dir]> fs in
          match rest' with
          | [] => (inr tt, fs')
          | _ => mkdir_walk exist_ok p rest' fs'
          end
      end
  end.

Definition makedirs (name : string) (exist_ok : bool) (fs : FS)
  : (exn + unit) * FS :=
  if bool_decide (name = "") then (inl (FileNotFoundError ""), fs)
  else mkdir_walk exist_ok [] (resolve name) fs.

End Py.

Export Py.

(** ** External calls

    Every function the script calls but does not define.  A constructor
    carries the arguments of one call, positional and keyword alike, under
    the callee's name.  The values the collaborators exchange (structures,
    screening results, path-search results, ...) are opaque Python objects
    of type [obj]. *)

Section Calls.

Context {obj : Type}.

Inductive call : Type :=
(* os, builtins, multiprocessing *)
| os_makedirs (name : string) (exist_ok : bool)
| print (s : string)
| mp_cpu_count
(* model.neb *)
| opt_slab
| init_molecule (name : string)
| opt_molecule (mol : obj)
| site_screening (slab ads : obj) (center_xy : string)
    (use_all_sites : bool) (workdir : string)
| validate_screening_files (dir : string)
| clean_incomplete_files (dir : string) (dry_run : bool)
| recover_screening_files (dir : string)
| load_screening_results (path : string)
| best_site_results (screening_results : obj)
| select_neb_endpoints_translation (best_site screening_results : obj)
| select_neb_endpoints_rotation (best_site screening_results : obj)
    (rotation_angle_diff : Z)
| prepare_neb_calculation (ep1 ep2 : obj) (n_images : Z)
    (barrier_type : string) (workdir : string).

(** The shape of what a call returns, as the script uses it: a 2-tuple
    where the script unpacks one, an integer for the CPU count, nothing
    of interest for [os.makedirs] and [print], one object otherwise.
    Any call may raise instead of returning. *)
Definition ret (c : call) : Type :=
  match c with
  | os_makedirs _ _ | print _ => unit
  | mp_cpu_count => Z
  | best_site_results _
  | select_neb_endpoints_translation _ _
  | select_neb_endpoints_rotation _ _ _
  | prepare_neb_calculation _ _ _ _ _ => (obj * obj)%type
  | _ => obj
  end.

(** Returned values, as they are logged: the same value whatever the
    call that returned it. *)
Inductive value : Type :=
| VNone
| VInt (n : Z)
| VObj (o : obj)
| VTuple (o1 o2 : obj).

Definition to_value (c : call) : ret c → value :=
  match c as c0 return ret c0 → value with
  | os_makedirs _ _ | print _ => λ _, VNone
  | mp_cpu_count => VInt
  | best_site_results _
  | select_neb_endpoints_translation _ _
  | select_neb_endpoints_rotation _ _ _
  | prepare_neb_calculation _ _ _ _ _ => λ x, VTuple x.1 x.2
  | _ => VObj
  end.

(** One call as it happened: the call and how it ended. *)
Inductive event : Type := Ev (c : call) (r : exn + value).

Definition ev_call (ev : event) : call := let 'Ev c _ := ev in c.

(** The exception a logged call raised, if it raised. *)
Definition ev_raised (ev : event) : option exn :=
  match ev with
  | Ev _ (inl e) => Some e
  | Ev _ (inr _) => None
  end.

(** The screening results a call consumes, for the three calls that
    take them as an argument. *)
Definition screening_results_arg (c : call) : option obj :=
  match c with
  | best_site_results sr
  | select_neb_endpoints_translation _ sr
  | select_neb_endpoints_rotation _ sr _ => Some sr
  | _ => None
  end.

(** ** Programs

    Sequential code of one process: return, raise, call then continue
    with the returned value, and [try: body / except Exception as e:
    handler e] (both arms of the script's only [try] end in [return], so
    nothing follows the statement). *)
Inductive prog (A : Type) : Type :=
| Ret (a : A)
| Raise (e : exn)
| Call (c : call) (k : ret c → prog A)
| TryExcept (body : prog A) (handler : exn → prog A).

End Calls.

Arguments call : clear implicits.
Arguments event : clear implicits.
Arguments value : clear implicits.
Arguments prog : clear implicits.
Arguments Ret {obj A} a.
Arguments Raise {obj A} e.
Arguments Call {obj A} c k.
Arguments TryExcept {obj A} body handler.

Declare Scope prog_scope.
Delimit Scope prog_scope with prog.
Bind Scope prog_scope with prog.

Notation "x <- c ;; k" := (Call c (fun x => k%prog))
  (at level 20, c at level 99, k at level 200, only parsing) : prog_scope.
Notation "' pat <- c ;; k" := (Call c (fun x => let 'pat := x in k%prog))
  (at level 20, pat pattern, c at level 99, k at level 200, only parsing)
  : prog_scope.
Notation "c ;; k" := (Call c (fun _ => k%prog))
  (at level 100, k at level 200, only parsing, right associativity)
  : prog_scope.

(** ** The script *)

Section Script.

Context {obj : Type}.

(** [{"translation": result_t, "rotation": result_r}], or [None]. *)
Definition TaskResult : Type := option (gmap string obj).

(** Lines 21-29 of [run_adsorbate_pipeline]: the workspace-setup stage,
    followed by the rest of the [try] body [k]. *)
Definition workspace_setup {A} (ads_name base_dir : string)
    (k : prog obj A) : prog obj A :=
  let ads_dir := os_path_join base_dir ads_name in
  let screening_dir := os_path_join ads_dir "Screening_Data" in
  let neb_trans_dir := os_path_join ads_dir "NEB_Translation" in
  let neb_rot_dir := os_path_join ads_dir "NEB_Rotation" in
  (os_makedirs screening_dir true ;;
   os_makedirs neb_trans_dir true ;;
   os_makedirs neb_rot_dir true ;;
   k)%prog.

Definition run_adsorbate_pipeline (ads_name : string) (base_dir : string)
  : prog obj (string * TaskResult) :=
  TryExcept
    (let ads_dir := os_path_join base_dir ads_name in
     let screening_dir := os_path_join ads_dir "Screening_Data" in
     let neb_trans_dir := os_path_join ads_dir "NEB_Translation" in
     let neb_rot_dir := os_path_join ads_dir "NEB_Rotation" in
     (* Create directories *)
     os_makedirs screening_dir true ;;
     os_makedirs neb_trans_dir true ;;
     os_makedirs neb_rot_dir true ;;
     print (nl +:+ "=== Starting adsorbate: " +:+ ads_name +:+ " ===") ;;
     (* Optimize slab + adsorbate *)
     slab <- opt_slab ;;
     mol <- init_molecule ads_name ;;
     ads <- opt_molecule mol ;;
     (* Site screening *)
     screening_results <- site_screening slab ads "site" true screening_dir ;;
     (* Validate and recover *)
     validate_screening_files screening_dir ;;
     clean_incomplete_files screening_dir false ;;
     recover_screening_files screening_dir ;;
     (* Load final screening results *)
     screening_results <- load_screening_results
       (os_path_join screening_dir "screening_results.pkl") ;;
     (* Best site *)
     '(df_sorted, best_site) <- best_site_results screening_results ;;
     (* Translation NEB *)
     '(ep1_t, ep2_t) <- select_neb_endpoints_translation
       best_site screening_results ;;
     '(images_t, result_t) <- prepare_neb_calculation
       ep1_t ep2_t 10 "translation" neb_trans_dir ;;
     (* Rotation NEB *)
     '(ep1_r, ep2_r) <- select_neb_endpoints_rotation
       best_site screening_results 120 ;;
     '(images_r, result_r) <- prepare_neb_calculation
       ep1_r ep2_r 10 "rotation" neb_rot_dir ;;
     Ret (ads_name,
          Some (<["rotation" := result_r]>
                  (<["translation" := result_t]> (∅ : gmap string obj)))))%prog
    (fun e =>
       (* the f-string formats [e] with [str(e)] before [print] is called *)
       match exn_str e with
       | inl e' => Raise e'
       | inr msg =>
           (print (" Error in adsorbate " +:+ ads_name +:+ ": " +:+ msg) ;;
            Ret (ads_name, None))%prog
       end).

End Script.

(** ** Semantics of one process *)

Section Semantics.

Context {obj E : Type}.

(** The world a process acts on: the file system, the standard output
    (the lines printed so far, and the exception a write raises when
    the stream is closed or broken), and whatever else the
    collaborators depend on ([ext]). *)
Record world : Type := World {
  fs : FS;
  stdout : list string;
  stdout_error : option exn;
  ext : E
}.

(** An environment answers the calls whose code is outside the script:
    each answer is a raised exception or a returned value, with the
    world after the call. *)
Definition environment : Type :=
  ∀ c : call obj, world → (exn + ret c) * world.

(** [print(s)]: the line is written, or the write raises.  Whether a
    write raises is a matter of the stream (closed, broken), not of the
    text: the stream is taken to encode every string and to have room
    for it. *)
Definition py_print (s : string) (w : world) : (exn + unit) * world :=
  match stdout_error w with
  | Some e => (inl e, w)
  | None => (inr tt, World (fs w) (stdout w ++ [s]) (stdout_error w) (ext w))
  end.

(** [os.makedirs] and [print] are the runtime's; the rest is the
    environment's. *)
Definition handle (env : environment) (c : call obj)
  : world → (exn + ret c) * world :=
  match c as c0 return world → (exn + ret c0) * world with
  | os_makedirs name exist_ok => λ w,
      let '(r, fs') := makedirs name exist_ok (fs w) in
      (r, World fs' (stdout w) (stdout_error w) (ext w))
  | print s => py_print s
  | c' => env c'
  end.

Variable env : environment.

(** Runs a program to its end: the outcome (raised exception or
    returned value), the final world and the calls made, in order. *)
Fixpoint exec {A} (p : prog obj A) (w : world)
  : (exn + A) * world * list (event obj) :=
  match p with
  | Ret a => (inr a, w, [])
  | Raise e => (inl e, w, [])
  | Call c k =>
      let '(r, w1) := handle env c w in
      match r with
      | inl e => (inl e, w1, [Ev c (inl e)])
      | inr x =>
          let '(o, w2, t) := exec (k x) w1 in
          (o, w2, Ev c (inr (to_value c x)) :: t)
      end
  | TryExcept body handler =>
      let '(o, w1, t1) := exec body w in
      match o with
      | inr a => (inr a, w1, t1)
      | inl e =>
          if is_Exception e then
            let '(o2, w2, t2) := exec (handler e) w1 in
            (o2, w2, t1 ++ t2)
          else (inl e, w1, t1)
      end
  end.

Definition outcome {A} (r : (exn + A) * world * list (event obj)) : exn + A :=
  r.1.1.
Definition final {A} (r : (exn + A) * world * list (event obj)) : world :=
  r.1.2.
Definition trace {A} (r : (exn + A) * world * list (event obj))
  : list (event obj) := r.2.

(** One step of a process: the next call is made, or a finished [try]
    statement is left.  The call made, if any, is reported. *)
Fixpoint step {A} (p : prog obj A) (w : world)
  : prog obj A * world * list (event obj) :=
  match p with
  | Ret a => (Ret a, w, [])
  | Raise e => (Raise e, w, [])
  | Call c k =>
      let '(r, w1) := handle env c w in
      match r with
      | inl e => (Raise e, w1, [Ev c (inl e)])
      | inr x => (k x, w1, [Ev c (inr (to_value c x))])
      end
  | TryExcept body handler =>
      match body with
      | Ret a => (Ret a, w, [])
      | Raise e => (if is_Exception e then handler e else Raise e, w, [])
      | _ =>
          let '(body', w1, evs) := step body w in
          (TryExcept body' handler, w1, evs)
      end
  end.

End Semantics.

Arguments world : clear implicits.
Arguments environment : clear implicits.

(** ** The pool of worker processes

    [multiprocessing.Pool(processes).map(func, iterable)], after
    CPython's [multiprocessing/pool.py].

    The items are cut into chunks.  A worker process takes a chunk and
    calls [func] on its items one after the other ([mapstar]); an item
    that raises ends its chunk, and the items after it in the chunk are
    never run.  The worker catches an [Exception] and reports it in
    place of the chunk's results.  An exception that is not an
    [Exception] kills the worker: its chunk is lost, and although the
    pool replaces the worker, [map] waits for the lost chunk for ever.
    When every chunk has been reported, [map] returns the results in the
    order of the items, or raises the failure that was reported first.

    The workers share nothing but the world (the file system and the
    terminal), and at most [processes] of them run at a time.  They
    interleave call by call.  Which chunk moves next is not the
    program's choice: it is given by a schedule, a list of chunk
    numbers.  Chunks are taken in their order.  A tick for a chunk that
    has ended, or that cannot start because [processes] chunks are
    already underway or because an earlier chunk has not been taken,
    does nothing.  Work left when the schedule is used up is completed
    chunk by chunk.

    Results and exceptions are taken to survive the transfer between
    processes (the executor returns a name and a dictionary of
    collaborator results by value), and creating the pool is taken to
    fail only for a number of processes below 1. *)

(** How a call of the parent process fails: it raises, or it never
    returns. *)
Inductive failure : Type :=
| Raises (e : exn)
| Blocks.

(** Why an item has no result: its call raised, or it was never run. *)
Inductive no_result : Type :=
| Raised (e : exn)
| NotRun.

Section Pool.

Context {obj E : Type}.
Variable env : environment obj E.

(** [divmod(len(iterable), len(self._pool) * 4)], rounded up; [0] for
    an empty iterable. *)
Definition chunksize (len : nat) (processes : Z) : nat :=
  let '(q, extra) := Z.div_eucl (Z.of_nat len) (processes * 4) in
  let q := if bool_decide (extra = 0)%Z then q else (q + 1)%Z in
  if bool_decide (len = 0) then 0 else Z.to_nat q.

(** [Pool._get_tasks]: slices of [size] items until the iterable is
    used up; [fuel] bounds the number of slices. *)
Fixpoint get_tasks {A} (size : nat) (it : list A) (fuel : nat)
  : list (list A) :=
  match fuel with
  | 0 => []
  | S fuel' =>
      match take size it with
      | [] => []
      | x => x :: get_tasks size (drop size it) fuel'
      end
  end.

(** A chunk in the hands of the pool: whether a worker has taken it,
    whether it has ended (reported, or lost with its worker), the items
    that have ended with the calls each made, the item being run with
    its calls so far and what is left of it, and the items not yet
    begun. *)
Record task (R : Type) : Type := Task {
  started : bool;
  ended : bool;
  done : list (list (event obj) * (no_result + R));
  cur : option (list (event obj) * prog obj R);
  rest : list string
}.
Arguments Task {R} _ _ _ _ _.
Arguments started {R} _.
Arguments ended {R} _.
Arguments done {R} _.
Arguments cur {R} _.
Arguments rest {R} _.

Definition underway {R} (t : task R) : bool :=
  started t && negb (ended t).

(** [MapResult._set] for a chunk that ended with exception [e], where
    [failed] is what [map] is bound to so far: the first reported
    [Exception] is kept; a lost chunk leaves [map] waiting. *)
Definition report (failed : option failure) (e : exn) : option failure :=
  if is_Exception e then
    match failed with
    | None => Some (Raises e)
    | Some f => Some f
    end
  else Some Blocks.

(** The state of a [map] call: the chunks, the world, and how the call
    is bound to fail, if it is. *)
Definition pool_state (R : Type) : Type :=
  (list (task R) * world E * option failure)%type.

(** One move of the worker of chunk [i]: it takes the chunk or its next
    item, makes the next call of the item, files the item's result, or
    reports the chunk. *)
Definition tick {R} (func : string → prog obj R) (processes : Z)
    (st : pool_state R) (i : nat) : pool_state R :=
  let '(ts, w, failed) := st in
  match ts !! i with
  | Some t =>
      if ended t then st
      else if started t
              || (bool_decide (Z.of_nat (length (List.filter underway ts))
                               < processes)%Z
                  && forallb started (take i ts))
      then
        match cur t with
        | None =>
            match rest t with
            | [] => (<[i := Task true true (done t) None []]> ts, w, failed)
            | x :: rest' =>
                (<[i := Task true false (done t) (Some ([], func x)) rest']>
                   ts, w, failed)
            end
        | Some (l, Ret a) =>
            (<[i := Task true false (done t ++ [(l, inr a)]) None (rest t)]>
               ts, w, failed)
        | Some (l, Raise e) =>
            (<[i := Task true true (done t ++ [(l, inl (Raised e))]) None
                      (rest t)]> ts, w, report failed e)
        | Some (l, p) =>
            let '(p', w1, evs) := step env p w in
            (<[i := Task true false (done t) (Some (l ++ evs, p')) (rest t)]>
               ts, w1, failed)
        end
      else st
  | None => st
  end.

(** [mapstar]: [func] on the items of a chunk, one after the other, up
    to the first that raises. *)
Fixpoint mapstar {R} (func : string → prog obj R) (chunk : list string)
    (w : world E) : list (list (event obj) * (no_result + R)) * world E :=
  match chunk with
  | [] => ([], w)
  | x :: chunk' =>
      let r := exec env (func x) w in
      match outcome r with
      | inl e =>
          ((trace r, inl (Raised e)) :: ((λ _, ([], inl NotRun)) <$> chunk'),
           final r)
      | inr a =>
          let '(rs, w1) := mapstar func chunk' (final r) in
          ((trace r, inr a) :: rs, w1)
      end
  end.

(** Completes a chunk: what its items give beyond those that have
    ended. *)
Definition finish {R} (func : string → prog obj R) (t : task R)
    (w : world E) : list (list (event obj) * (no_result + R)) * world E :=
  if ended t then ((λ _, ([], inl NotRun)) <$> rest t, w)
  else
    match cur t with
    | None => mapstar func (rest t) w
    | Some (l, p) =>
        let r := exec env p w in
        match outcome r with
        | inl e =>
            ((l ++ trace r, inl (Raised e))
               :: ((λ _, ([], inl NotRun)) <$> rest t), final r)
        | inr a =>
            let '(rs, w1) := mapstar func (rest t) (final r) in
            ((l ++ trace r, inr a) :: rs, w1)
        end
    end.

(** The exception that ended a chunk, if one did. *)
Fixpoint raised {R} (rs : list (list (event obj) * (no_result + R)))
  : option exn :=
  match rs with
  | [] => None
  | (_, inl (Raised e)) :: _ => Some e
  | _ :: rs' => raised rs'
  end.

(** Completes the chunks in order; for each item, the calls it made and
    how it ended. *)
Fixpoint drain {R} (func : string → prog obj R) (ts : list (task R))
    (w : world E) (failed : option failure)
  : list (list (event obj) * (no_result + R)) * world E * option failure :=
  match ts with
  | [] => ([], w, failed)
  | t :: ts' =>
      let '(rs, w1) := finish func t w in
      let failed1 := match raised rs with
                     | Some e => report failed e
                     | None => failed
                     end in
      let '(rss, w2, failed2) := drain func ts' w1 failed1 in
      ((done t ++ rs) ++ rss, w2, failed2)
  end.

Definition pool_end {R} (processes : Z) (sched : list nat)
    (func : string → prog obj R) (iterable : list string) (w : world E)
  : list (list (event obj) * (no_result + R)) * world E * option failure :=
  let chunks := get_tasks (chunksize (length iterable) processes) iterable
                  (length iterable) in
  let ts := (λ chunk, Task false false [] None chunk) <$> chunks in
  let '(ts1, w1, failed) := foldl (tick func processes) (ts, w, None) sched in
  drain func ts1 w1 failed.

(** What became of each item, and the world the workers left. *)
Definition pool_run {R} (processes : Z) (sched : list nat)
    (func : string → prog obj R) (iterable : list string) (w : world E)
  : list (list (event obj) * (no_result + R)) * world E :=
  (pool_end processes sched func iterable w).1.

(** The results that are there. *)
Definition returned {R} (rs : list (list (event obj) * (no_result + R)))
  : list R :=
  omap (λ r, match r.2 with
             | inr a => Some a
             | inl _ => None
             end) rs.

Definition pool_map {R} (processes : Z) (sched : list nat)
    (func : string → prog obj R) (iterable : list string) (w : world E)
  : (failure + list R) * world E :=
  if bool_decide (processes < 1)%Z then
    (inl (Raises (ValueError "Number of processes must be at least 1")), w)
  else
    let '(rs, w1, failed) := pool_end processes sched func iterable w in
    (match failed with
     | Some f => inl f
     | None => inr (returned rs)
     end, w1).

(** ** The batch dispatcher *)

(** Code of the parent process: it threads the world and stops at the
    first failure. *)
Definition proc (A : Type) : Type := world E → (failure + A) * world E.

Definition proc_ret {A} (a : A) : proc A := λ w, (inr a, w).

Definition proc_bind {A B} (m : proc A) (k : A → proc B) : proc B :=
  λ w, let '(r, w1) := m w in
       match r with
       | inl f => (inl f, w1)
       | inr a => k a w1
       end.

(** A call made by the parent process. *)
Definition proc_call (c : call obj) : proc (ret c) :=
  λ w, let '(r, w1) := handle env c w in
       (match r with
        | inl e => inl (Raises e)
        | inr x => inr x
        end, w1).

Local Notation "x <- m ;; k" := (proc_bind m (fun x => k))
  (at level 20, m at level 99, k at level 200, only parsing).
Local Notation "m ;; k" := (proc_bind m (fun _ => k))
  (at level 100, k at level 200, only parsing, right associativity).

(** Lines 94-99: create [base_dir], settle the number of processes and
    announce the batch. *)
Definition dispatch_setup (adsorbate_list : list string)
    (base_dir : string) (n_cores : option Z) : proc Z :=
  proc_call (os_makedirs base_dir true) ;;
  n_cores <- match n_cores with
             | None => proc_call mp_cpu_count
             | Some n => proc_ret n
             end ;;
  proc_call (print (nl +:+ ">>> Running "
                       +:+ pretty (length adsorbate_list)
                       +:+ " adsorbates on " +:+ pretty n_cores
                       +:+ " cores <<<")) ;;
  proc_ret n_cores.

(** Line 107: [{ads: res for ads, res in results_list}]. *)
Definition to_dict {V} (results_list : list (string * V)) : gmap string V :=
  foldl (λ d '(ads, res), <[ads := res]> d) ∅ results_list.

Definition run_adsorbate_list_parallel (sched : list nat)
    (adsorbate_list : list string) (base_dir : string)
    (n_cores : option Z) : proc (gmap string (@TaskResult obj)) :=
  n_cores <- dispatch_setup adsorbate_list base_dir n_cores ;;
  let worker := λ ads_name, run_adsorbate_pipeline ads_name base_dir in
  results_list <- pool_map n_cores sched worker adsorbate_list ;;
  let results := to_dict results_list in
  proc_ret results.

End Pool.

Arguments Task {obj R} _ _ _ _ _.
Arguments started {obj R} _.
Arguments ended {obj R} _.
Arguments done {obj R} _.
Arguments cur {obj R} _.
Arguments rest {obj R} _.

(** ** All behaviours of a program

    [wp p Q]: however the calls of [p] are answered, the calls made and
    the outcome satisfy [Q]. *)

Section WP.

Context {obj : Type}.

Fixpoint wp {A} (p : prog obj A)
    (Q : list (event obj) → exn + A → Prop) : Prop :=
  match p with
  | Ret a => Q [] (inr a)
  | Raise e => Q [] (inl e)
  | Call c k =>
      (∀ e, Q [Ev c (inl e)] (inl e)) ∧
      (∀ x, wp (k x) (λ t o, Q (Ev c (inr (to_value c x)) :: t) o))
  | TryExcept body handler =>
      wp body (λ t o,
        match o with
        | inr a => Q t (inr a)
        | inl e =>
            if is_Exception e
            then wp (handler e) (λ t' o', Q (t ++ t') o')
            else Q t (inl e)
        end)
  end.

End WP.

(** ** Behaviours under a given environment

    [always env I p Q]: whatever worlds satisfying [I] the calls of [p]
    meet, with the answers [env] gives there, [p] ends in an outcome
    satisfying [Q].  The worlds between two calls of [p] are not related:
    other processes may act in between. *)

Section Always.

Context {obj E : Type}.
Variable env : environment obj E.
Variable I : world E → Prop.

Fixpoint always {A} (p : prog obj A) (Q : exn + A → Prop) : Prop :=
  match p with
  | Ret a => Q (inr a)
  | Raise e => Q (inl e)
  | Call c k =>
      ∀ w, I w →
        match (handle env c w).1 with
        | inl e => Q (inl e)
        | inr x => always (k x) Q
        end
  | TryExcept body handler =>
      always body (λ o,
        match o with
        | inr a => Q (inr a)
        | inl e => if is_Exception e then always (handler e) Q
                   else Q (inl e)
        end)
  end.

(** [I] holds of every world the batch can reach. *)
Definition preserved : Prop := ∀ c w, I w → I (handle env c w).2.

End Always.

(** ** What holds of a pool

    The notions the facts about the pool are stated with. *)

Section PoolSpec.

Context {obj E R : Type}.
Implicit Types (rs : list (list (event obj) * (no_result + R))).

(** The call of some item raised [e]. *)
Definition raised_in rs (e : exn) : Prop :=
  ∃ l, (l, inl (Raised e)) ∈ rs.

(** No item raised. *)
Definition no_raise rs : Prop := ∀ e, ¬ raised_in rs e.

(** Items are left out only after one that raised: where none raised,
    every item has a result. *)
Definition justified rs : Prop :=
  no_raise rs → Forall (λ r, ∃ a, r.2 = inr a) rs.

(** How [map] is bound to fail, against the exceptions [S] raised so
    far: not at all if there is none, by waiting for ever if one is not
    an [Exception], and by raising one of them otherwise. *)
Definition verdict (failed : option failure) (S : exn → Prop) : Prop :=
  match failed with
  | None => ∀ e, ¬ S e
  | Some Blocks => ∃ e, S e ∧ is_Exception e = false
  | Some (Raises e) => S e ∧ ∀ e', S e' → is_Exception e' = true
  end.

(** The exceptions raised in the chunks [ts] so far. *)
Definition raised_so_far (ts : list (task (obj:=obj) R)) (e : exn) : Prop :=
  ∃ j t, ts !! j = Some t ∧ raised_in (done t) e.

(** The shape of a chunk: no item that has ended was left out; none has
    raised unless the chunk has ended; and a chunk that has ended has no
    item underway, and none left unless one raised. *)
Definition shape_ok (t : task (obj:=obj) R) : Prop :=
  Forall (λ r, r.2 ≠ inl NotRun) (done t) ∧
  (ended t = false → no_raise (done t)) ∧
  (ended t = true → cur t = None ∧ (no_raise (done t) → rest t = [])).

(** What is known of an item: [F] of its calls and outcome if it was
    run. *)
Definition entry_ok (F : string → list (event obj) → exn + R → Prop)
    (x : string) (r : list (event obj) * (no_result + R)) : Prop :=
  match r.2 with
  | inr a => F x r.1 (inr a)
  | inl (Raised e) => F x r.1 (inl e)
  | inl NotRun => True
  end.

(** What is known of a chunk while it runs: [F] of the items that have
    ended, [P] of the one underway and of those to come. *)
Definition chunk_ok (func : string → prog obj R)
    (P : string → list (event obj) → prog obj R → Prop)
    (F : string → list (event obj) → exn + R → Prop)
    (chunk : list string) (t : task (obj:=obj) R) : Prop :=
  ∃ xs ys,
    chunk = xs ++ ys ++ rest t ∧
    Forall2 (entry_ok F) xs (done t) ∧
    match cur t with
    | None => ys = []
    | Some (l, p) => ∃ x, ys = [x] ∧ P x l p
    end ∧
    (ended t = true → cur t = None) ∧
    Forall (λ x, P x [] (func x)) (rest t).

End PoolSpec.

(** The workspace of an item, as lines 21-24 compute it. *)
Definition ads_dir (ads_name base_dir : string) : string :=
  os_path_join base_dir ads_name.
Definition screening_dir (ads_name base_dir : string) : string :=
  os_path_join (ads_dir ads_name base_dir) "Screening_Data".
Definition neb_trans_dir (ads_name base_dir : string) : string :=
  os_path_join (ads_dir ads_name base_dir) "NEB_Translation".
Definition neb_rot_dir (ads_name base_dir : string) : string :=
  os_path_join (ads_dir ads_name base_dir) "NEB_Rotation".

(** A run in which no call raises. *)
Definition fault_free {obj} (t : list (event obj)) : Prop :=
  ∀ ev, ev ∈ t → ev_raised ev = None.

(** The path-search calls. *)
Definition is_path_search {obj} (c : call obj) : bool :=
  match c with
  | prepare_neb_calculation _ _ _ _ _ => true
  | _ => false
  end.

(** The line the executor logs for a fault with message [msg]. *)
Definition error_line (ads_name msg : string) : string :=
  " Error in adsorbate " +:+ ads_name +:+ ": " +:+ msg.

(** What every behaviour of the executor satisfies, for use under the
    pool: a returned pair carries the item's name; its result is [None]
    if some call raised, and a dictionary with both keys, no call having
    raised, otherwise; the executor raises only if some call raised. *)
Definition executor_post {obj} (ads_name : string) (t : list (event obj))
    (o : exn + string * @TaskResult obj) : Prop :=
  match o with
  | inr (name, None) =>
      name = ads_name ∧ ∃ ev e, ev ∈ t ∧ ev_raised ev = Some e
  | inr (name, Some d) =>
      name = ads_name ∧ dom d = {[ "translation"; "rotation" ]} ∧
      ∀ ev, ev ∈ t → ev_raised ev = None
  | inl _ => ∃ ev e, ev ∈ t ∧ ev_raised ev = Some e
  end.

(** ** A mock of the collaborators

    Canned answers for every call, with faults injected where [fault]
    says so; the world is left as it is. *)

Definition canned (c : call string) : ret c :=
  match c as c0 return ret c0 with
  | os_makedirs _ _ | print _ => tt
  | mp_cpu_count => 4%Z
  | opt_slab => "slab"
  | init_molecule name => "mol:" +:+ name
  | opt_molecule mol => "relaxed:" +:+ mol
  | site_screening _ _ _ _ _ => "raw"
  | validate_screening_files _ => "report"
  | clean_incomplete_files _ _ => "None"
  | recover_screening_files _ => "None"
  | load_screening_results path => "pickle:" +:+ path
  | best_site_results sr => ("df_sorted", "best:" +:+ sr)
  | select_neb_endpoints_translation _ _ => ("t1", "t2")
  | select_neb_endpoints_rotation _ _ _ => ("r1", "r2")
  | prepare_neb_calculation _ _ _ barrier_type _ =>
      ("images", "result:" +:+ barrier_type)
  end.

Definition mock (fault : call string → option exn) : environment string unit :=
  λ c w, (match fault c with
          | Some e => inl e
          | None => inr (canned c)
          end, w).

Definition no_fault : call string → option exn := λ _, None.

(** Ctrl-C while the slab is being relaxed. *)
Definition interrupt_opt_slab (c : call string) : option exn :=
  match c with
  | opt_slab => Some (Exn KeyboardInterrupt "")
  | _ => None
  end.

(** The rotation path search fails. *)
Definition rotation_fails (c : call string) : option exn :=
  match c with
  | prepare_neb_calculation _ _ _ "rotation" _ =>
      Some (Exn (ExceptionSubclass "RuntimeError") "NEB did not converge")
  | _ => None
  end.

(** The relaxed slab cannot be computed, and the exception's [__str__]
    is broken. *)
Definition unprintable_fault (c : call string) : option exn :=
  match c with
  | opt_slab =>
      Some (Unprintable (ExceptionSubclass "CalculationFailed")
              (Exn (ExceptionSubclass "TypeError")
                 "__str__ returned non-string (type NoneType)"))
  | _ => None
  end.

(** An empty file system, nothing printed yet. *)
Definition w0 : world unit := World ∅ [] None tt.

(** The same with the standard output closed. *)
Definition w_closed : world unit :=
  World ∅ [] (Some (ValueError "I/O operation on closed file.")) tt.

(** The setup of item [X2] fails: its molecule is unknown. *)
Definition x2_fails (c : call string) : option exn :=
  match c with
  | init_molecule "X2" =>
      Some (Exn (ExceptionSubclass "KeyError") "unknown molecule")
  | _ => None
  end.

(** Ctrl-C reaches the worker of item [X2] while its molecule is set
    up. *)
Definition x2_interrupted (c : call string) : option exn :=
  match c with
  | init_molecule "X2" => Some (Exn KeyboardInterrupt "")
  | _ => None
  end.

(** The setup of item [X2] fails with an exception whose [__str__] is
    broken. *)
Definition x2_unprintable (c : call string) : option exn :=
  match c with
  | init_molecule "X2" =>
      Some (Unprintable (ExceptionSubclass "KeyError")
              (Exn (ExceptionSubclass "TypeError")
                 "__str__ returned non-string (type NoneType)"))
  | _ => None
  end.

(** A collaborator whose answers depend on the world: each path search
    returns the number of path searches made before it. *)
Definition counting : environment string nat :=
  λ c w,
    match c as c0 return (exn + ret c0) * world nat with
    | prepare_neb_calculation _ _ _ barrier_type _ =>
        (inr ("images", barrier_type +:+ "#" +:+ pretty (ext w)),
         World (fs w) (stdout w) (stdout_error w) (S (ext w)))
    | c' => (inr (canned c'), w)
    end.

(** The dictionary a call returned, empty if it raised. *)
Definition returned_dict {X V} (o : X + gmap string V) : gmap string V :=
  match o with
  | inr d => d
  | inl _ => ∅
  end.

(** A file system without regular files. *)
Definition no_files {E} (w : world E) : Prop :=
  ∀ p, fs w !! p ≠ Some File.

(** A world where [os.makedirs] and [print] cannot fail: no regular
    files, and the standard output open. *)
Definition fair {E} (w : world E) : Prop :=
  no_files w ∧ stdout_error w = None.

(** What the mock pipeline returns for an item. *)
Definition mock_result (x : string) : string * @TaskResult string :=
  (x, Some (<["rotation" := "result:rotation"]>
              (<["translation" := "result:translation"]> ∅))).

(** The working directory a call hands to a collaborator. *)
Definition workdir_arg {obj} (c : call obj) : option string :=
  match c with
  | site_screening _ _ _ _ workdir
  | prepare_neb_calculation _ _ _ _ workdir => Some workdir
  | validate_screening_files dir
  | clean_incomplete_files dir _
  | recover_screening_files dir => Some dir
  | _ => None
  end.

(** Every path a call names. *)
Definition path_args {obj} (c : call obj) : list string :=
  match c with
  | os_makedirs name _ => [name]
  | load_screening_results path => [path]
  | _ => match workdir_arg c with
         | Some dir => [dir]
         | None => []
         end
  end.

(** A world where a regular file stands where [base_dir] should be. *)
Definition w_blocked : world unit :=
  World (<[ ["Adsorbates"] := File ]> ∅) [] None tt.

(** * Proofs *)

(** ** The runtime and the script *)

Example os_path_join_plain :
  os_path_join "Adsorbates" "CO2" = "Adsorbates/CO2".
Proof. reflexivity. Qed.

Example os_path_join_trailing_sep :
  os_path_join "Adsorbates/" "CO2" = "Adsorbates/CO2".
Proof. reflexivity. Qed.

Example os_path_join_absolute :
  os_path_join "Adsorbates" "/tmp/x" = "/tmp/x".
Proof. reflexivity. Qed.

Example resolve_example :
  resolve "Adsorbates//CO2/./Screening_Data/" = ["Adsorbates"; "CO2"; "Screening_Data"].
Proof. reflexivity. Qed.

(** The [try] body of the executor starts with the workspace setup. *)
Lemma run_adsorbate_pipeline_setup {obj} ads_name base_dir :
  ∃ k h, run_adsorbate_pipeline (obj:=obj) ads_name base_dir
         = TryExcept (workspace_setup ads_name base_dir k) h.
Proof. eexists _, _. reflexivity. Qed.

(** ** Programs and their behaviours *)

Section WPFacts.

Context {obj : Type}.

Lemma wp_mono {A} (p : prog obj A) (Q Q' : list (event obj) → exn + A → Prop) :
  (∀ t o, Q t o → Q' t o) → wp p Q → wp p Q'.
Proof.
  revert Q Q'. induction p as [a|e|c k IH|body IHb handler IHh]; simpl;
    intros Q Q' HQ.
  - apply HQ.
  - apply HQ.
  - intros [Hr Hk]. split.
    + intros e. apply HQ, Hr.
    + intros x. eapply IH; [|apply Hk]. intros t o. apply HQ.
  - apply IHb. intros t [e|a]; [|apply HQ].
    destruct (is_Exception e); [|apply HQ].
    apply IHh. intros t' o'. apply HQ.
Qed.

Context {E : Type}.

(** Every run of [exec] is one of the behaviours [wp] speaks of. *)
Lemma exec_wp (env : environment obj E) {A} (p : prog obj A) Q w :
  wp p Q → Q (trace (exec env p w)) (outcome (exec env p w)).
Proof.
  revert Q w. induction p as [a|e|c k IH|body IHb handler IHh]; simpl;
    intros Q w.
  - done.
  - done.
  - intros [Hr Hk].
    destruct (handle env c w) as [[e|x] w1] eqn:Hc.
    + apply Hr.
    + specialize (IH x _ w1 (Hk x)).
      destruct (exec env (k x) w1) as [[o w2] t]. exact IH.
  - intros Hb. specialize (IHb _ w Hb).
    destruct (exec env body w) as [[[e|a] w1] t1]; cbn in IHb |- *.
    + destruct (is_Exception e); [|exact IHb].
      specialize (IHh e _ w1 IHb).
      destruct (exec env (handler e) w1) as [[o2 w2] t2]. exact IHh.
    + exact IHb.
Qed.

End WPFacts.

Section AlwaysFacts.

Context {obj E : Type}.
Variable env : environment obj E.
Variable I : world E → Prop.

Lemma wp_always {A} (p : prog obj A) Q' (Q : exn + A → Prop) :
  wp p Q' → (∀ t o, Q' t o → Q o) → always env I p Q.
Proof.
  revert Q' Q. induction p as [a|e|c k IH|body IHb handler IHh]; simpl;
    intros Q' Q Hwp HQ.
  - eapply HQ, Hwp.
  - eapply HQ, Hwp.
  - destruct Hwp as [Hr Hk]. intros w _.
    destruct (handle env c w) as [[e|x] w1] eqn:Hc; cbn [fst].
    + eapply HQ, Hr.
    + eapply IH; [apply Hk|]. intros t o. apply HQ.
  - eapply IHb; [exact Hwp|]. intros t [e|a]; cbn beta iota.
    + destruct (is_Exception e); [|apply HQ].
      intros Hh. eapply IHh; [exact Hh|]. intros t' o'. apply HQ.
    + apply HQ.
Qed.

Hypothesis HI : preserved env I.

Lemma step_always {A} (p : prog obj A) Q w :
  I w → always env I p Q →
  always env I (step env p w).1.1 Q ∧ I (step env p w).1.2.
Proof.
  revert Q w. induction p as [a|e|c k IH|body IHb handler IHh];
    intros Q w Hw Hp.
  - done.
  - done.
  - cbn [step]. specialize (Hp w Hw). pose proof (HI c w Hw) as Hw1.
    destruct (handle env c w) as [[e|x] w1]; cbn [fst snd] in *; done.
  - cbn [always] in Hp. destruct body as [a|e|c k|b h].
    + done.
    + cbn [step fst snd]. split; [|done]. cbn [always] in Hp.
      destruct (is_Exception e); done.
    + specialize (IHb _ w Hw Hp).
      remember (Call c k) as body eqn:Hb.
      assert (step env (TryExcept body handler) w
              = let '(body', w1, evs) := step env body w in
                (TryExcept body' handler, w1, evs)) as ->
        by (subst body; reflexivity).
      destruct (step env body w) as [[body' w1] evs]. exact IHb.
    + specialize (IHb _ w Hw Hp).
      remember (TryExcept b h) as body eqn:Hb.
      assert (step env (TryExcept body handler) w
              = let '(body', w1, evs) := step env body w in
                (TryExcept body' handler, w1, evs)) as ->
        by (subst body; reflexivity).
      destruct (step env body w) as [[body' w1] evs]. exact IHb.
Qed.

Lemma exec_always {A} (p : prog obj A) Q w :
  I w → always env I p Q →
  Q (outcome (exec env p w)) ∧ I (final (exec env p w)).
Proof.
  revert Q w. induction p as [a|e|c k IH|body IHb handler IHh];
    intros Q w Hw Hp.
  - done.
  - done.
  - cbn [exec]. specialize (Hp w Hw). pose proof (HI c w Hw) as Hw1.
    destruct (handle env c w) as [[e|x] w1]; cbn [fst snd] in *; [done|].
    specialize (IH x Q w1 Hw1 Hp).
    destruct (exec env (k x) w1) as [[o w2] t]. exact IH.
  - cbn [exec]. cbn [always] in Hp. specialize (IHb _ w Hw Hp).
    destruct (exec env body w) as [[[e|a] w1] t1];
      unfold outcome, final in *; cbn [fst snd] in *; [|done].
    destruct IHb as [Hq Hw1]. destruct (is_Exception e); [|done].
    specialize (IHh e Q w1 Hw1 Hq).
    destruct (exec env (handler e) w1) as [[o2 w2] t2]. exact IHh.
Qed.

End AlwaysFacts.

Section StepWP.

Context {obj E : Type}.
Variable env : environment obj E.

(** A step keeps the behaviours: what could still happen after the step
    could happen before it. *)
Lemma step_wp {A} (p : prog obj A) Q w :
  wp p Q →
  wp (step env p w).1.1 (λ t o, Q ((step env p w).2 ++ t) o).
Proof.
  revert Q w. induction p as [a|e|c k IH|body IHb handler IHh];
    intros Q w Hp.
  - exact Hp.
  - exact Hp.
  - cbn [step]. destruct Hp as [Hr Hk].
    destruct (handle env c w) as [[e|x] w1] eqn:Hc; cbn [fst snd wp].
    + apply Hr.
    + apply Hk.
  - cbn [wp] in Hp.
    assert (∀ body' evs,
      wp body' (λ t o,
        match o with
        | inr a => Q (evs ++ t) (inr a)
        | inl e =>
            if is_Exception e
            then wp (handler e) (λ t' o', Q ((evs ++ t) ++ t') o')
            else Q (evs ++ t) (inl e)
        end) →
      wp (TryExcept body' handler) (λ t o, Q (evs ++ t) o)) as Hre.
    { intros body' evs Hb. cbn [wp]. eapply wp_mono; [|exact Hb].
      intros t [e|a]; cbn beta iota; [|done].
      destruct (is_Exception e); [|done].
      apply wp_mono. intros t' o'. by rewrite app_assoc. }
    destruct body as [a|e|c k|b h].
    + exact Hp.
    + cbn [step fst snd]. cbn [wp] in Hp.
      destruct (is_Exception e); exact Hp.
    + specialize (IHb _ w Hp).
      remember (Call c k) as body eqn:Hb.
      assert (step env (TryExcept body handler) w
              = let '(body', w1, evs) := step env body w in
                (TryExcept body' handler, w1, evs)) as ->
        by (subst body; reflexivity).
      destruct (step env body w) as [[body' w1] evs]. apply Hre, IHb.
    + specialize (IHb _ w Hp).
      remember (TryExcept b h) as body eqn:Hb.
      assert (step env (TryExcept body handler) w
              = let '(body', w1, evs) := step env body w in
                (TryExcept body' handler, w1, evs)) as ->
        by (subst body; reflexivity).
      destruct (step env body w) as [[body' w1] evs]. apply Hre, IHb.
Qed.

End StepWP.

(** ** Reasoning about the executor *)

(** One case split of [wp]: the next call raises or returns. *)
Ltac wp_step :=
  match goal with
  | |- _ ∧ _ => split
  | |- ∀ _, _ => intro
  | |- context [let '(_, _) := ?x in _] => destruct x
  | |- context [is_Exception ?e] => destruct (is_Exception e) eqn:?
  | |- context [exn_str ?e] => destruct (exn_str e) eqn:?
  end; cbn [wp app to_value fst snd].

(** All behaviours of the executor, one goal per behaviour, for a
    postcondition [Q] that is kept folded meanwhile. *)
Ltac executor_cases :=
  match goal with
  | |- wp (run_adsorbate_pipeline ?a ?b) ?Q =>
      let Q' := fresh "Q" in
      let HQ := fresh "HQ" in
      remember Q as Q' eqn:HQ;
      unfold run_adsorbate_pipeline; cbv zeta;
      change (os_path_join (os_path_join b a) "Screening_Data")
        with (screening_dir a b);
      change (os_path_join (os_path_join b a) "NEB_Translation")
        with (neb_trans_dir a b);
      change (os_path_join (os_path_join b a) "NEB_Rotation")
        with (neb_rot_dir a b);
      cbn [wp app to_value fst snd]; repeat wp_step; subst Q'; cbn beta
  end.

(** A goal about the calls and outcome of a run follows from the same
    statement about all behaviours. *)
Ltac by_wp :=
  match goal with
  | |- context [exec ?env ?p ?w] =>
      pattern (trace (exec env p w)), (outcome (exec env p w));
      apply exec_wp
  end.

(** Membership in an explicit list of calls or events. *)
Ltac in_cases :=
  repeat match goal with
  | H : _ ∈ [] |- _ => apply elem_of_nil in H; destruct H
  | H : _ ∈ _ :: _ |- _ => apply elem_of_cons in H as [H|H]
  end.

(** Shows that a given element occurs in an explicit list. *)
Ltac in_list :=
  cbn [fmap list_fmap ev_call];
  repeat first [ apply list_elem_of_here | apply list_elem_of_further ].

(** Position of a call in an explicit list of events. *)
Ltac lookup_cases i H :=
  repeat (lazymatch goal with _ : (_ :: _) !! _ = _ |- _ => idtac end;
          destruct i as [|i];
          [ cbn [lookup list_lookup] in H;
            first [ discriminate H | injection H; clear H; intros ]
          | cbn [lookup list_lookup] in H ]);
  try match goal with
      | H' : [] !! _ = Some _ |- _ => discriminate H'
      | H' : None = Some _ |- _ => discriminate H'
      end.

(** A run with a call that raised is not fault-free. *)
Ltac not_fault_free H :=
  exfalso;
  match type of H with
  | context [Ev ?c (inl ?e)] =>
      assert (ev_raised (Ev c (inl e)) = None) as [=] by (apply H; in_list)
  end.

(** Splits an explicit list of events before its last elements, as
    many as the goal asks for. *)
Ltac split_trace :=
  lazymatch goal with
  | |- ?l = ?t0 ++ ?s =>
      let t := eval cbn [length take Nat.sub] in
               (take (length l - length s) l) in
      unify t0 t; reflexivity
  end.

Section Executor.

Context {obj E : Type}.
Implicit Types (env : environment obj E) (w : world E).
Implicit Types (ads_name base_dir : string).

(** C10. Whenever the executor calls [site_screening], it passes
    [center_xy='site'], [use_all_sites=True] and the item's screening
    directory.  The call is the one made right after [opt_molecule] has
    returned, on the slab [opt_slab] returned and the molecule
    [opt_molecule] returned.  A run in which no call raises makes the
    call, once, and returns a result; and a result is returned by such
    runs only. *)
Theorem site_screening_always_exhaustive env ads_name base_dir w :
  let r := exec env (run_adsorbate_pipeline ads_name base_dir) w in
  let t := trace r in
  let sdir := screening_dir ads_name base_dir in
  (∀ slab ads center_xy use_all_sites workdir,
      site_screening slab ads center_xy use_all_sites workdir ∈ ev_call <$> t →
      center_xy = "site" ∧ use_all_sites = true ∧ workdir = sdir) ∧
  (∀ i mol ads,
      t !! i = Some (Ev (opt_molecule mol) (inr (VObj ads))) →
      ∃ slab r',
        Ev opt_slab (inr (VObj slab)) ∈ t ∧
        t !! (i + 1) = Some (Ev (site_screening slab ads "site" true sdir) r')) ∧
  (fault_free t →
     ∃ i slab ads raw d,
       t !! i = Some (Ev (site_screening slab ads "site" true sdir)
                         (inr (VObj raw))) ∧
       (∀ j slab' ads' center_xy use_all_sites workdir r',
           t !! j = Some (Ev (site_screening slab' ads' center_xy
                                use_all_sites workdir) r') → j = i) ∧
       outcome r = inr (ads_name, Some d)) ∧
  (∀ name d, outcome r = inr (name, Some d) → fault_free t).
Proof.
  cbv zeta. by_wp. executor_cases.
  all: split; [ intros slab ads center_xy use_all_sites workdir Hin
              | split; [ intros i mol ads Hi
                       | split; [ intros Hff | intros name d Ho ] ] ].
  all: try discriminate Ho.
  all: try (not_fault_free Hff).
  all: try (cbn [fmap list_fmap ev_call] in Hin; in_cases;
            try discriminate Hin; injection Hin as -> -> -> -> ->; done).
  all: try (lookup_cases i Hi; subst; eexists _, _;
            split; first [solve [in_list] | reflexivity]).
  - exists 7. eexists _, _, _, _. split; [reflexivity|]. split; [|reflexivity].
    intros j slab' ads' center_xy use_all_sites workdir r' Hj.
    lookup_cases j Hj; reflexivity.
  - intros ev Hin. in_cases; subst; reflexivity.
Qed.

(** C9. Whenever the executor calls [clean_incomplete_files], it passes
    [dry_run=False] and the item's screening directory.  The call is
    the one made right after [validate_screening_files] has returned.
    A run in which no call raises makes the call, once, and returns a
    result; and a result is returned by such runs only. *)
Theorem clean_always_destructive env ads_name base_dir w :
  let r := exec env (run_adsorbate_pipeline ads_name base_dir) w in
  let t := trace r in
  let sdir := screening_dir ads_name base_dir in
  (∀ dir dry_run,
      clean_incomplete_files dir dry_run ∈ ev_call <$> t →
      dry_run = false ∧ dir = sdir) ∧
  (∀ i dir report,
      t !! i = Some (Ev (validate_screening_files dir) (inr report)) →
      ∃ r', t !! (i + 1) = Some (Ev (clean_incomplete_files sdir false) r')) ∧
  (fault_free t →
     ∃ i cleaned d,
       t !! i = Some (Ev (clean_incomplete_files sdir false)
                         (inr (VObj cleaned))) ∧
       (∀ j dir dry_run r',
           t !! j = Some (Ev (clean_incomplete_files dir dry_run) r') →
           j = i) ∧
       outcome r = inr (ads_name, Some d)) ∧
  (∀ name d, outcome r = inr (name, Some d) → fault_free t).
Proof.
  cbv zeta. by_wp. executor_cases.
  all: split; [ intros dir dry_run Hin
              | split; [ intros i dir report Hi
                       | split; [ intros Hff | intros name d Ho ] ] ].
  all: try discriminate Ho.
  all: try (not_fault_free Hff).
  all: try (cbn [fmap list_fmap ev_call] in Hin; in_cases;
            try discriminate Hin; injection Hin as -> ->; done).
  all: try (lookup_cases i Hi; subst; eexists; reflexivity).
  - exists 9. eexists _, _. split; [reflexivity|]. split; [|reflexivity].
    intros j dir dry_run r' Hj. lookup_cases j Hj; reflexivity.
  - intros ev Hin. in_cases; subst; reflexivity.
Qed.

(** C8. Every path-search call of the executor asks for 10 images and is
    either the translation one, in the translation directory, or the
    rotation one, in the rotation directory; every rotation endpoint
    selection passes an angle of 120 and the best site returned by
    [best_site_results].  Each endpoint selection that returns is
    followed at once by the path search of its own kind, on the
    endpoints selected.  A result the executor returns holds what these
    two path searches returned: the run ends with the translation
    selection and search and the rotation selection and search, and
    makes no other path search.  A run in which no call raises returns
    a result. *)
Theorem path_search_configuration env ads_name base_dir w :
  let r := exec env (run_adsorbate_pipeline ads_name base_dir) w in
  let t := trace r in
  let tdir := neb_trans_dir ads_name base_dir in
  let rdir := neb_rot_dir ads_name base_dir in
  (∀ ep1 ep2 n_images barrier_type workdir,
      prepare_neb_calculation ep1 ep2 n_images barrier_type workdir
        ∈ ev_call <$> t →
      n_images = 10%Z ∧
      (barrier_type = "translation" ∧ workdir = tdir
       ∨ barrier_type = "rotation" ∧ workdir = rdir)) ∧
  (∀ best_site sr angle,
      select_neb_endpoints_rotation best_site sr angle ∈ ev_call <$> t →
      angle = 120%Z ∧
      ∃ df_sorted,
        Ev (best_site_results sr) (inr (VTuple df_sorted best_site)) ∈ t) ∧
  (∀ i best_site sr ep1 ep2,
      t !! i = Some (Ev (select_neb_endpoints_translation best_site sr)
                        (inr (VTuple ep1 ep2))) →
      ∃ r', t !! (i + 1)
            = Some (Ev (prepare_neb_calculation ep1 ep2 10 "translation" tdir)
                       r')) ∧
  (∀ i best_site sr angle ep1 ep2,
      t !! i = Some (Ev (select_neb_endpoints_rotation best_site sr angle)
                        (inr (VTuple ep1 ep2))) →
      ∃ r', t !! (i + 1)
            = Some (Ev (prepare_neb_calculation ep1 ep2 10 "rotation" rdir)
                       r')) ∧
  (∀ name d, outcome r = inr (name, Some d) →
     ∃ t0 best_site sr ep1_t ep2_t images_t result_t
          ep1_r ep2_r images_r result_r,
       t = t0 ++
           [Ev (select_neb_endpoints_translation best_site sr)
               (inr (VTuple ep1_t ep2_t));
            Ev (prepare_neb_calculation ep1_t ep2_t 10 "translation" tdir)
               (inr (VTuple images_t result_t));
            Ev (select_neb_endpoints_rotation best_site sr 120)
               (inr (VTuple ep1_r ep2_r));
            Ev (prepare_neb_calculation ep1_r ep2_r 10 "rotation" rdir)
               (inr (VTuple images_r result_r))] ∧
       d !! "translation" = Some result_t ∧
       d !! "rotation" = Some result_r ∧
       ∀ ev, ev ∈ t0 → is_path_search (ev_call ev) = false) ∧
  (fault_free t → ∃ d, outcome r = inr (ads_name, Some d)).
Proof.
  cbv zeta. by_wp. executor_cases.
  all: split; [ intros ep1 ep2 n_images barrier_type workdir Hin
              | split; [ intros best_site sr angle Hin
              | split; [ intros i best_site sr ep1 ep2 Hi
              | split; [ intros i best_site sr angle ep1 ep2 Hi
              | split; [ intros name d Ho | intros Hff ] ] ] ] ].
  all: try discriminate Ho.
  all: try (not_fault_free Hff).
  all: try (clear Hff; eexists; reflexivity).
  all: try (lookup_cases i Hi; subst; eexists; reflexivity).
  all: try (cbn [fmap list_fmap ev_call] in Hin; in_cases;
            try discriminate Hin; injection Hin; intros; subst;
            split;
            first [ done | by left | by right | eexists; solve [in_list] ]).
  - injection Ho as _ <-.
    eexists _, _, _, _, _, _, _, _, _, _, _. split; [split_trace|].
    split; [|split].
    + rewrite lookup_insert_ne by done. apply lookup_insert_eq.
    + apply lookup_insert_eq.
    + intros ev Hin. in_cases; subst; reflexivity.
Qed.

(** C4. Whenever the executor passes screening results [sr] to
    [best_site_results] or to an endpoint selection, [sr] is the value
    that [load_screening_results] returned for
    [<screening_dir>/screening_results.pkl]; that load is the only one
    and comes right after [site_screening], [validate_screening_files],
    [clean_incomplete_files] and [recover_screening_files] returned, in
    this order.  The value [raw] that [site_screening] returned is not
    what is passed on. *)
Theorem screening_results_reloaded env ads_name base_dir w :
  let t := trace (exec env (run_adsorbate_pipeline ads_name base_dir) w) in
  let sdir := screening_dir ads_name base_dir in
  ∀ i c r sr,
    t !! i = Some (Ev c r) →
    screening_results_arg c = Some sr →
    ∃ k slab ads raw report cleaned recovered,
      k + 4 < i ∧
      t !! k = Some (Ev (site_screening slab ads "site" true sdir)
                        (inr (VObj raw))) ∧
      t !! (k + 1) = Some (Ev (validate_screening_files sdir)
                              (inr (VObj report))) ∧
      t !! (k + 2) = Some (Ev (clean_incomplete_files sdir false)
                              (inr (VObj cleaned))) ∧
      t !! (k + 3) = Some (Ev (recover_screening_files sdir)
                              (inr (VObj recovered))) ∧
      t !! (k + 4) = Some (Ev (load_screening_results
                                 (os_path_join sdir "screening_results.pkl"))
                              (inr (VObj sr))) ∧
      ∀ j path r', t !! j = Some (Ev (load_screening_results path) r') →
                   j = k + 4.
Proof.
  cbv zeta. by_wp. executor_cases.
  all: intros i c r sr Hi Hsr.
  all: lookup_cases i Hi; subst; try discriminate Hsr.
  all: injection Hsr as <-.
  all: exists 7; eexists _, _, _, _, _, _.
  all: split; [lia|]; do 5 (split; [reflexivity|]).
  all: intros j path r' Hj; lookup_cases j Hj; reflexivity.
Qed.

(** C3. A result the executor returns is [None] or a dictionary with
    exactly the keys ["translation"] and ["rotation"], whose values are
    the results the two path-search calls returned; and once any call
    has raised, whether before or after the translation path search
    returned, no dictionary is returned. *)
Theorem task_result_all_or_nothing env ads_name base_dir w :
  let r := exec env (run_adsorbate_pipeline ads_name base_dir) w in
  match outcome r with
  | inr (_, Some d) =>
      ∃ ep1_t ep2_t images_t result_t ep1_r ep2_r images_r result_r,
        dom d = {[ "translation"; "rotation" ]} ∧
        d !! "translation" = Some result_t ∧
        d !! "rotation" = Some result_r ∧
        Ev (prepare_neb_calculation ep1_t ep2_t 10 "translation"
              (neb_trans_dir ads_name base_dir))
           (inr (VTuple images_t result_t)) ∈ trace r ∧
        Ev (prepare_neb_calculation ep1_r ep2_r 10 "rotation"
              (neb_rot_dir ads_name base_dir))
           (inr (VTuple images_r result_r)) ∈ trace r ∧
        ∀ ev, ev ∈ trace r → ev_raised ev = None
  | inr (_, None) => ∃ ev e, ev ∈ trace r ∧ ev_raised ev = Some e
  | inl _ => True
  end.
Proof.
  cbv zeta. by_wp. executor_cases. all: cbv beta iota.
  all: try exact I.
  all: try (match goal with
            | |- context [Ev ?c (inl ?e)] => exists (Ev c (inl e)), e
            end; split; [|reflexivity]; solve [in_list]).
  eexists _, _, _, _, _, _, _, _.
  split; [|split; [|split; [|split; [|split]]]].
  - rewrite !dom_insert_L, dom_empty_L. set_solver.
  - rewrite lookup_insert_ne by done. apply lookup_insert_eq.
  - apply lookup_insert_eq.
  - in_list.
  - in_list.
  - intros ev Hin. in_cases; subst; reflexivity.
Qed.

(** C1, as the code has it.  The executor's [except Exception] clause
    catches every exception that is an instance of [Exception], and its
    handler formats the exception and prints a line, either of which
    can raise in its turn.  So: if the executor returns, it returns the
    item's name with a result, and the result is [None] exactly when
    some call raised; the exception was then an instance of
    [Exception], [str] of it returned its message, and the last call is
    the [print] of the item's name with that message, which returned.
    If the executor raises, then a call raised an exception [e] and
    either [e] is not an instance of [Exception] and is the one raised,
    or [e] was caught and [str(e)] raised, or [e] was caught and the
    [print] of the line raised. *)
Theorem executor_fault_handling env ads_name base_dir w :
  let r := exec env (run_adsorbate_pipeline ads_name base_dir) w in
  match outcome r with
  | inr (name, Some _) => name = ads_name ∧ fault_free (trace r)
  | inr (name, None) =>
      name = ads_name ∧
      ∃ t0 c e msg,
        trace r = t0 ++ [Ev c (inl e);
                         Ev (print (error_line ads_name msg)) (inr VNone)] ∧
        is_Exception e = true ∧ exn_str e = inr msg ∧
        fault_free t0
  | inl e' =>
      ∃ t0 c e,
        fault_free t0 ∧
        (trace r = t0 ++ [Ev c (inl e)] ∧
           is_Exception e = false ∧ e' = e
         ∨ trace r = t0 ++ [Ev c (inl e)] ∧
           is_Exception e = true ∧ exn_str e = inl e'
         ∨ ∃ msg,
             trace r = t0 ++ [Ev c (inl e);
                              Ev (print (error_line ads_name msg)) (inl e')] ∧
             is_Exception e = true ∧ exn_str e = inr msg)
  end.
Proof.
  cbv zeta. by_wp. executor_cases. all: cbv beta iota.
  all: try (split; [done|]).
  all: try (intros ev Hin; in_cases; subst; reflexivity).
  all: try (eexists _, _, _, _; split; [split_trace|];
            split; [done|]; split; [done|];
            intros ev Hin; in_cases; subst; reflexivity).
  all: eexists _, _, _; split.
  all: try first [ left; split; [split_trace|done]
                 | right; left; split; [split_trace|done]
                 | right; right; eexists; split; [split_trace|done] ].
  all: intros ev Hin; in_cases; subst; reflexivity.
Qed.

End Executor.

(** ** The file system under [os.makedirs] *)

Section Makedirs.

Implicit Types (fs : FS) (pre rest : list string).

(** [os.makedirs] only adds entries. *)
Lemma mkdir_walk_mono ok pre rest fs :
  fs ⊆ (mkdir_walk ok pre rest fs).2.
Proof.
  revert pre fs. induction rest as [|c rest' IH]; intros pre fs; simpl.
  - done.
  - destruct (fs !! (pre ++ [c])) as [[|]|] eqn:Hp.
    + apply IH.
    + done.
    + assert (fs ⊆ <[pre ++ [c] := Dir]> fs) as Hsub
        by by apply insert_subseteq.
      destruct rest' as [|c' rest'']; [exact Hsub|].
      etrans; [exact Hsub|apply IH].
Qed.

Lemma mkdir_walk_dir ok pre c rest fs :
  fs !! (pre ++ [c]) = Some Dir →
  mkdir_walk ok pre (c :: rest) fs = mkdir_walk ok (pre ++ [c]) rest fs.
Proof. intros Hp. cbn [mkdir_walk]. cbv zeta. rewrite Hp. reflexivity. Qed.

Lemma mkdir_walk_file ok pre c rest fs :
  fs !! (pre ++ [c]) = Some File →
  mkdir_walk ok pre (c :: rest) fs
  = (inl (match rest with
          | [] => FileExistsError (join_sep (pre ++ [c]))
          | c' :: _ => NotADirectoryError (join_sep ((pre ++ [c]) ++ [c']))
          end), fs).
Proof. intros Hp. cbn [mkdir_walk]. cbv zeta. rewrite Hp. reflexivity. Qed.

Lemma mkdir_walk_missing ok pre c rest fs :
  fs !! (pre ++ [c]) = None →
  mkdir_walk ok pre (c :: rest) fs
  = match rest with
    | [] => (inr tt, <[pre ++ [c] := Dir]> fs)
    | _ => mkdir_walk ok (pre ++ [c]) rest (<[pre ++ [c] := Dir]> fs)
    end.
Proof. intros Hp. cbn [mkdir_walk]. cbv zeta. rewrite Hp. reflexivity. Qed.

(** With [exist_ok=True], repeating a call on the file system it left
    gives the same outcome and changes nothing. *)
Lemma mkdir_walk_idem pre rest fs :
  mkdir_walk true pre rest (mkdir_walk true pre rest fs).2
  = mkdir_walk true pre rest fs.
Proof.
  revert pre fs. induction rest as [|c rest' IH]; intros pre fs.
  - reflexivity.
  - destruct (fs !! (pre ++ [c])) as [[|]|] eqn:Hp.
    + rewrite (mkdir_walk_dir _ _ _ _ fs Hp).
      rewrite mkdir_walk_dir; [apply IH|].
      exact (lookup_weaken _ _ _ _ Hp (mkdir_walk_mono _ _ _ _)).
    + rewrite (mkdir_walk_file _ _ _ _ fs Hp). cbn [snd].
      apply mkdir_walk_file, Hp.
    + rewrite (mkdir_walk_missing _ _ _ _ fs Hp).
      destruct rest' as [|c' rest''].
      * cbn [snd]. rewrite mkdir_walk_dir by apply lookup_insert_eq.
        reflexivity.
      * rewrite mkdir_walk_dir; [apply IH|].
        eapply lookup_weaken; [|apply mkdir_walk_mono].
        apply lookup_insert_eq.
Qed.

(** A call that returned keeps returning, and changes nothing, on any
    larger file system. *)
Lemma mkdir_walk_stable pre rest fs fs1 fs2 :
  mkdir_walk true pre rest fs = (inr tt, fs1) →
  fs1 ⊆ fs2 →
  mkdir_walk true pre rest fs2 = (inr tt, fs2).
Proof.
  revert pre fs. induction rest as [|c rest' IH]; intros pre fs Hw Hsub.
  - reflexivity.
  - destruct (fs !! (pre ++ [c])) as [[|]|] eqn:Hp.
    + rewrite (mkdir_walk_dir _ _ _ _ fs Hp) in Hw.
      pose proof (mkdir_walk_mono true (pre ++ [c]) rest' fs) as Hm.
      rewrite Hw in Hm. cbn [snd] in Hm.
      rewrite mkdir_walk_dir; [eapply IH; eassumption|].
      exact (lookup_weaken _ _ _ _ Hp (transitivity Hm Hsub)).
    + rewrite (mkdir_walk_file _ _ _ _ fs Hp) in Hw. discriminate Hw.
    + rewrite (mkdir_walk_missing _ _ _ _ fs Hp) in Hw.
      destruct rest' as [|c' rest''].
      * injection Hw as <-.
        rewrite mkdir_walk_dir; [reflexivity|].
        exact (lookup_weaken _ _ _ _ (lookup_insert_eq fs _ Dir) Hsub).
      * pose proof (mkdir_walk_mono true (pre ++ [c]) (c' :: rest'')
                      (<[pre ++ [c] := Dir]> fs)) as Hm.
        rewrite Hw in Hm. cbn [snd] in Hm.
        rewrite mkdir_walk_dir; [eapply IH; eassumption|].
        exact (lookup_weaken _ _ _ _ (lookup_insert_eq fs _ Dir)
                 (transitivity Hm Hsub)).
Qed.

Lemma makedirs_mono name ok fs : fs ⊆ (makedirs name ok fs).2.
Proof.
  unfold makedirs. case_bool_decide; [done|apply mkdir_walk_mono].
Qed.

Lemma makedirs_idem name fs :
  makedirs name true (makedirs name true fs).2 = makedirs name true fs.
Proof.
  unfold makedirs. case_bool_decide as Hn.
  - reflexivity.
  - apply mkdir_walk_idem.
Qed.

Lemma makedirs_stable name fs fs1 fs2 :
  makedirs name true fs = (inr tt, fs1) →
  fs1 ⊆ fs2 →
  makedirs name true fs2 = (inr tt, fs2).
Proof.
  unfold makedirs. case_bool_decide; [done|apply mkdir_walk_stable].
Qed.

End Makedirs.

Section WorkspaceSetup.

Context {obj E : Type}.
Implicit Types (env : environment obj E) (w : world E).

(** What [os.makedirs(name, exist_ok=True)] does to the world. *)
Lemma handle_makedirs env name w :
  handle env (os_makedirs name true) w
  = ((makedirs name true (fs w)).1,
     World (makedirs name true (fs w)).2 (stdout w) (stdout_error w) (ext w)).
Proof. cbn [handle]. destruct (makedirs name true (fs w)). reflexivity. Qed.

Lemma handle_makedirs_mono env name w :
  fs w ⊆ fs (handle env (os_makedirs name true) w).2.
Proof. rewrite handle_makedirs. apply makedirs_mono. Qed.

Lemma handle_makedirs_idem env name w :
  handle env (os_makedirs name true)
    (handle env (os_makedirs name true) w).2
  = handle env (os_makedirs name true) w.
Proof.
  rewrite !handle_makedirs. cbn [fs stdout stdout_error ext snd].
  rewrite makedirs_idem. reflexivity.
Qed.

Lemma handle_makedirs_stable env name w w1 w2 :
  handle env (os_makedirs name true) w = (inr tt, w1) →
  fs w1 ⊆ fs w2 →
  handle env (os_makedirs name true) w2 = (inr tt, w2).
Proof.
  rewrite !handle_makedirs. intros Hw Hsub.
  destruct (makedirs name true (fs w)) as [[e|[]] fs1] eqn:Hm;
    [discriminate Hw|].
  injection Hw as <-. cbn [fs] in Hsub.
  rewrite (makedirs_stable _ _ _ _ Hm Hsub). destruct w2; reflexivity.
Qed.

(** C7. Running the workspace setup again, on the world the first run
    left, ends the same way (it returns if the first run returned, and
    raises the same exception otherwise), makes the same calls and
    leaves the world, hence the set of directories, unchanged. *)
Theorem workspace_setup_idempotent env ads_name base_dir w :
  let setup := workspace_setup ads_name base_dir (Ret tt) in
  let r := exec env setup w in
  exec env setup (final r) = r ∧
  (outcome r = inr tt →
   outcome (exec env setup (final r)) = inr tt ∧
   fs (final (exec env setup (final r))) = fs (final r)).
Proof.
  cbv zeta.
  assert (exec env (workspace_setup ads_name base_dir (Ret tt))
            (final (exec env (workspace_setup ads_name base_dir (Ret tt)) w))
          = exec env (workspace_setup ads_name base_dir (Ret tt)) w) as Hidem.
  2: { split; [exact Hidem|]. intros Hok. rewrite Hidem. done. }
  unfold workspace_setup. cbv zeta.
  set (d1 := os_path_join _ "Screening_Data").
  set (d2 := os_path_join _ "NEB_Translation").
  set (d3 := os_path_join _ "NEB_Rotation").
  cbn [exec].
  pose proof (handle_makedirs_idem env d1 w) as I1.
  pose proof (handle_makedirs_mono env d1 w) as M1.
  destruct (handle env (os_makedirs d1 true) w) as [[e1|[]] w1] eqn:H1;
    cbn [snd] in I1, M1.
  { cbn [final fst snd]. rewrite I1. reflexivity. }
  pose proof (handle_makedirs_idem env d2 w1) as I2.
  pose proof (handle_makedirs_mono env d2 w1) as M2.
  destruct (handle env (os_makedirs d2 true) w1) as [[e2|[]] w2] eqn:H2;
    cbn [snd] in I2, M2.
  { cbn [final fst snd].
    rewrite (handle_makedirs_stable env d1 w w1 w2 H1 M2).
    rewrite I2. reflexivity. }
  pose proof (handle_makedirs_idem env d3 w2) as I3.
  pose proof (handle_makedirs_mono env d3 w2) as M3.
  destruct (handle env (os_makedirs d3 true) w2) as [[e3|[]] w3] eqn:H3;
    cbn [snd] in I3, M3.
  { cbn [final fst snd].
    rewrite (handle_makedirs_stable env d1 w w1 w3 H1 (transitivity M2 M3)).
    rewrite (handle_makedirs_stable env d2 w1 w2 w3 H2 M3).
    rewrite I3. reflexivity. }
  cbn [final fst snd].
  rewrite (handle_makedirs_stable env d1 w w1 w3 H1 (transitivity M2 M3)).
  rewrite (handle_makedirs_stable env d2 w1 w2 w3 H2 M3).
  rewrite I3. reflexivity.
Qed.

End WorkspaceSetup.

(** ** The pool: chunks and their shape *)

Section Chunks.

Context {A : Type}.

(** The chunk size is at least 1 for a non-empty iterable. *)
Lemma chunksize_pos len n : 0 < len → (1 ≤ n)%Z → 0 < chunksize len n.
Proof.
  intros Hlen Hn. unfold chunksize.
  pose proof (Z_div_mod (Z.of_nat len) (n * 4) ltac:(lia)) as Hdiv.
  destruct (Z.div_eucl (Z.of_nat len) (n * 4)) as [q extra].
  destruct Hdiv as [Heq Hextra].
  rewrite bool_decide_false by lia.
  case_bool_decide; nia.
Qed.

(** The chunks are the iterable, cut. *)
Lemma get_tasks_concat size (it : list A) fuel :
  0 < size → (length it ≤ fuel)%nat →
  concat (get_tasks size it fuel) = it.
Proof.
  intros Hsize. revert it. induction fuel as [|fuel IH]; intros it Hfuel.
  - destruct it; [done|cbn [length] in Hfuel; lia].
  - cbn [get_tasks].
    destruct (take size it) as [|x chunk] eqn:Htake.
    + destruct it as [|y it]; [done|].
      destruct size; [lia|discriminate Htake].
    + cbn [concat]. rewrite IH.
      * rewrite <- Htake. apply take_drop.
      * rewrite length_drop.
        assert (0 < length it)
          by (destruct it; [by rewrite take_nil in Htake|cbn; lia]).
        lia.
Qed.

Lemma elem_of_concat (x : A) (l : list A) (ls : list (list A)) :
  x ∈ l → l ∈ ls → x ∈ concat ls.
Proof.
  intros Hx. induction ls as [|l' ls IH]; intros Hl.
  - by apply elem_of_nil in Hl.
  - cbn [concat]. apply elem_of_app.
    apply elem_of_cons in Hl as [<-|Hl]; [by left|right; by apply IH].
Qed.

End Chunks.

Section PoolShape.

Context {obj E R : Type}.
Variable env : environment obj E.
Variable func : string → prog obj R.
Implicit Types (rs : list (list (event obj) * (no_result + R))).
Implicit Types (t : task (obj:=obj) R) (ts : list (task (obj:=obj) R)).

Lemma raised_in_app rs1 rs2 e :
  raised_in (rs1 ++ rs2) e ↔ raised_in rs1 e ∨ raised_in rs2 e.
Proof.
  unfold raised_in. split.
  - intros [l Hl]. apply elem_of_app in Hl as [Hl|Hl];
      [left|right]; by exists l.
  - intros [[l Hl]|[l Hl]]; exists l; apply elem_of_app; first [by left | by right].
Qed.

Lemma raised_in_nil e : ¬ raised_in (R:=R) (obj:=obj) [] e.
Proof. intros [l Hl]. by apply elem_of_nil in Hl. Qed.

Lemma raised_in_cons_inr l a rs e :
  raised_in ((l, inr a) :: rs) e ↔ raised_in rs e.
Proof.
  unfold raised_in. split.
  - intros [l' Hl]. apply elem_of_cons in Hl as [[=]|Hl]. by exists l'.
  - intros [l' Hl]. exists l'. by right.
Qed.

Lemma raised_in_cons_Raised l e0 rs e :
  raised_in ((l, inl (Raised e0)) :: rs) e ↔ e = e0 ∨ raised_in rs e.
Proof.
  unfold raised_in. split.
  - intros [l' Hl]. apply elem_of_cons in Hl as [[= _ ->]|Hl];
      [by left|right; by exists l'].
  - intros [->|[l' Hl]]; [exists l; by left|exists l'; by right].
Qed.

Lemma raised_in_NotRun (chunk : list string) e :
  ¬ raised_in ((λ _, ([], inl NotRun)) <$> chunk : list (list (event obj) * (no_result + R))) e.
Proof.
  intros [l Hl]. apply list_elem_of_fmap in Hl as (x & [=] & _).
Qed.

Lemma no_raise_app rs1 rs2 :
  no_raise (rs1 ++ rs2) ↔ no_raise rs1 ∧ no_raise rs2.
Proof.
  unfold no_raise. split.
  - intros Hno. split; intros e He; apply (Hno e), raised_in_app;
      first [by left | by right].
  - intros [H1 H2] e He. apply raised_in_app in He as [He|He];
      [by apply (H1 e)|by apply (H2 e)].
Qed.

Lemma justified_app rs1 rs2 :
  justified rs1 → justified rs2 → justified (rs1 ++ rs2).
Proof.
  intros H1 H2 Hno. apply no_raise_app in Hno as [Hno1 Hno2].
  apply Forall_app. split; [by apply H1|by apply H2].
Qed.

(** Items that ended without raising have a result. *)
Lemma no_raise_results rs :
  Forall (λ r, r.2 ≠ inl NotRun) rs → no_raise rs →
  Forall (λ r, ∃ a, r.2 = inr a) rs.
Proof.
  intros Hrun Hno. apply Forall_forall. intros [l [[e|]|a]] Hin.
  - destruct (Hno e). by exists l.
  - by destruct (proj1 (Forall_forall _ _) Hrun _ Hin).
  - by exists a.
Qed.

(** [raised] finds an exception that was raised. *)
Lemma raised_Some rs e : raised rs = Some e → raised_in rs e.
Proof.
  induction rs as [|[l [[e'|]|a]] rs IH]; cbn [raised]; intros Hr.
  - done.
  - injection Hr as ->. apply raised_in_cons_Raised. by left.
  - destruct (IH Hr) as [l' Hl']. exists l'. by right.
  - apply raised_in_cons_inr. by apply IH.
Qed.

Lemma raised_None rs : raised rs = None → no_raise rs.
Proof.
  induction rs as [|[l [[e'|]|a]] rs IH]; cbn [raised]; intros Hr e.
  - apply raised_in_nil.
  - done.
  - intros [l' Hl']. apply elem_of_cons in Hl' as [[=]|Hl'].
    apply (IH Hr e). by exists l'.
  - rewrite raised_in_cons_inr. by apply IH.
Qed.

(** At most one item of a chunk raises, and where none does all have a
    result. *)
Lemma mapstar_shape chunk w :
  justified (mapstar env func chunk w).1 ∧
  ∀ e, raised_in (mapstar env func chunk w).1 e →
       raised (mapstar env func chunk w).1 = Some e.
Proof.
  revert w. induction chunk as [|x chunk IH]; intros w; cbn [mapstar].
  - split; [by constructor|]. intros e He. by apply raised_in_nil in He.
  - destruct (outcome (exec env (func x) w)) as [e0|a]; cbn [fst].
    + split.
      * intros Hno. destruct (Hno e0). apply raised_in_cons_Raised. by left.
      * intros e He. apply raised_in_cons_Raised in He as [->|He]; [done|].
        by apply raised_in_NotRun in He.
    + destruct (IH (final (exec env (func x) w))) as [Hj Hr].
      destruct (mapstar env func chunk _) as [rs w1]. cbn [fst] in *.
      split.
      * intros Hno. constructor; [by exists a|]. apply Hj.
        intros e He. apply (Hno e). by apply raised_in_cons_inr.
      * intros e He. apply raised_in_cons_inr in He. cbn [raised].
        by apply Hr.
Qed.

Lemma finish_shape t w :
  shape_ok t →
  justified (done t ++ (finish env func t w).1) ∧
  ∀ e, raised_in (finish env func t w).1 e →
       raised (finish env func t w).1 = Some e.
Proof.
  intros (Hrun & Hopen & Hend). unfold finish.
  destruct (ended t) eqn:He; cbn [fst].
  - destruct (Hend eq_refl) as [_ Hrest]. split.
    + intros Hno. apply no_raise_app in Hno as [Hno _].
      rewrite (Hrest Hno), fmap_nil, app_nil_r.
      by apply no_raise_results.
    + intros e Hin. by apply raised_in_NotRun in Hin.
  - pose proof (no_raise_results _ Hrun (Hopen eq_refl)) as Hdone.
    destruct (cur t) as [[l p]|].
    + destruct (outcome (exec env p w)) as [e0|a]; cbn [fst].
      * split.
        -- intros Hno. destruct (Hno e0). apply raised_in_app. right.
           apply raised_in_cons_Raised. by left.
        -- intros e Hin.
           apply raised_in_cons_Raised in Hin as [->|Hin]; [done|].
           by apply raised_in_NotRun in Hin.
      * destruct (mapstar_shape (rest t) (final (exec env p w))) as [Hj Hr].
        destruct (mapstar env func (rest t) _) as [rs w1]. cbn [fst] in *.
        split.
        -- intros Hno. apply no_raise_app in Hno as [_ Hno].
           apply Forall_app. split; [done|].
           constructor; [by exists a|]. apply Hj.
           intros e Hin. apply (Hno e). by apply raised_in_cons_inr.
        -- intros e Hin. apply raised_in_cons_inr in Hin. cbn [raised].
           by apply Hr.
    + destruct (mapstar_shape (rest t) w) as [Hj Hr]. split; [|done].
      intros Hno. apply no_raise_app in Hno as [_ Hno].
      apply Forall_app. split; [done|by apply Hj].
Qed.

(** ** How [map] is bound to fail *)

Lemma verdict_ext failed (S S' : exn → Prop) :
  (∀ e, S' e ↔ S e) → verdict failed S → verdict failed S'.
Proof.
  intros HS. destruct failed as [[e|]|]; cbn [verdict].
  - intros [He Hall]. split; [by apply HS|]. intros e' He'.
    by apply Hall, HS.
  - intros (e & He & Hne). exists e. split; [by apply HS|done].
  - intros Hno e He. by apply (Hno e), HS.
Qed.

Lemma verdict_report failed (S S' : exn → Prop) e0 :
  (∀ e, S' e ↔ e = e0 ∨ S e) →
  verdict failed S → verdict (report failed e0) S'.
Proof.
  intros HS. unfold report. destruct (is_Exception e0) eqn:He0.
  - destruct failed as [[e|]|]; cbn [verdict].
    + intros [He Hall]. split; [apply HS; by right|].
      intros e' He'. apply HS in He' as [->|He']; [done|by apply Hall].
    + intros (e & He & Hne). exists e. split; [apply HS; by right|done].
    + intros Hno. split; [apply HS; by left|].
      intros e' He'. apply HS in He' as [->|He']; [done|].
      by destruct (Hno e').
  - intros _. exists e0. split; [apply HS; by left|done].
Qed.

Lemma raised_so_far_insert ts i t t' (X : exn → Prop) :
  ts !! i = Some t →
  (∀ e, raised_in (done t') e ↔ X e ∨ raised_in (done t) e) →
  ∀ e, raised_so_far (<[i := t']> ts) e ↔ X e ∨ raised_so_far ts e.
Proof.
  intros Hi Hdone e. unfold raised_so_far. split.
  - intros (j & t'' & Hj & Hin).
    apply list_lookup_insert_Some in Hj as [(<- & <- & _)|[Hne Hj]].
    + apply Hdone in Hin as [Hx|Hin]; [by left|]. right. by exists i, t.
    + right. by exists j, t''.
  - intros [Hx|(j & t'' & Hj & Hin)].
    + exists i, t'. split; [|apply Hdone; by left].
      apply list_lookup_insert_eq. by eapply lookup_lt_Some.
    + destruct (decide (i = j)) as [->|Hne].
      * exists j, t'. rewrite Hi in Hj. injection Hj as <-.
        split; [|apply Hdone; by right].
        apply list_lookup_insert_eq. by eapply lookup_lt_Some.
      * exists j, t''. split; [|done].
        by rewrite list_lookup_insert_ne.
Qed.

Lemma tick_shape n ts w failed i :
  Forall shape_ok ts → verdict failed (raised_so_far ts) →
  let st := tick env func n (ts, w, failed) i in
  Forall shape_ok st.1.1 ∧ verdict st.2 (raised_so_far st.1.1).
Proof.
  intros Hts Hv. cbv zeta. unfold tick.
  destruct (ts !! i) as [t|] eqn:Hi; [|done].
  destruct (ended t) eqn:He; [done|].
  destruct (started t || _); [|done].
  pose proof (proj1 (Forall_lookup _ _) Hts i t Hi) as (Hrun & Hopen & Hend).
  specialize (Hopen He).
  assert (∀ t', done t' = done t → shape_ok t' →
            Forall shape_ok (<[i := t']> ts)
            ∧ verdict failed (raised_so_far (<[i := t']> ts))) as Hsame.
  { intros t' Hd Ht'. split; [by apply Forall_insert|].
    eapply verdict_ext; [|exact Hv]. intros e.
    rewrite (raised_so_far_insert ts i t t' (λ _, False) Hi).
    - tauto.
    - intros e'. rewrite Hd. tauto. }
  destruct (cur t) as [[l p]|] eqn:Hc.
  - destruct p as [a|e0|c k|body handler].
    + cbn [fst snd]. split.
      * apply Forall_insert; [done|]. split; [|split]; cbn [done ended].
        -- apply Forall_app. split; [done|]. by repeat constructor.
        -- intros _. apply no_raise_app. split; [done|].
           intros e [l' Hl']. apply list_elem_of_singleton in Hl'. done.
        -- done.
      * eapply verdict_ext; [|exact Hv]. intros e.
        rewrite (raised_so_far_insert ts i t _ (λ _, False) Hi).
        -- tauto.
        -- intros e'. cbn [done]. rewrite raised_in_app.
           split; [intros [H|[l' Hl']]|intros [[]|H]].
           ++ by right.
           ++ apply list_elem_of_singleton in Hl'. done.
           ++ by left.
    + cbn [fst snd]. split.
      * apply Forall_insert; [done|]. split; [|split]; cbn [done ended cur].
        -- apply Forall_app. split; [done|]. by repeat constructor.
        -- done.
        -- intros _. split; [done|]. intros Hno. destruct (Hno e0).
           apply raised_in_app. right. exists l. by left.
      * eapply verdict_report; [|exact Hv]. intros e.
        apply (raised_so_far_insert ts i t _ (λ e, e = e0) Hi).
        intros e'. cbn [done]. rewrite raised_in_app.
        split; [intros [H|[l' Hl']]|intros [->|H]].
        -- by right.
        -- apply list_elem_of_singleton in Hl'. injection Hl' as _ ->.
           by left.
        -- right. exists l. by left.
        -- by left.
    + destruct (step env (Call c k) w) as [[p' w1] evs]. cbn [fst snd].
      apply Hsame; [done|]. by split; [|split].
    + destruct (step env (TryExcept body handler) w) as [[p' w1] evs].
      cbn [fst snd]. apply Hsame; [done|]. by split; [|split].
  - destruct (rest t) as [|x rest'] eqn:Hr; cbn [fst snd].
    + apply Hsame; [done|]. by split; [|split].
    + apply Hsame; [done|]. by split; [|split].
Qed.

Lemma schedule_shape n sched ts w failed :
  Forall shape_ok ts → verdict failed (raised_so_far ts) →
  let st := foldl (tick env func n) (ts, w, failed) sched in
  Forall shape_ok st.1.1 ∧ verdict st.2 (raised_so_far st.1.1).
Proof.
  revert ts w failed.
  induction sched as [|i sched IH]; intros ts w failed Hts Hv; [done|].
  cbn [foldl]. destruct (tick_shape n ts w failed i Hts Hv) as [Hts' Hv'].
  destruct (tick env func n (ts, w, failed) i) as [[ts' w'] failed'].
  by apply IH.
Qed.

Lemma drain_shape ts w failed (S : exn → Prop) :
  Forall shape_ok ts →
  verdict failed (λ e, S e ∨ raised_so_far ts e) →
  let r := drain env func ts w failed in
  justified r.1.1 ∧ verdict r.2 (λ e, S e ∨ raised_in r.1.1 e).
Proof.
  intros Hts. revert w failed S.
  induction Hts as [|t ts Ht Hts IH]; intros w failed S Hv; cbn [drain].
  - cbn [fst snd]. split; [by constructor|].
    eapply verdict_ext; [|exact Hv]. intros e. split.
    + intros [He|He]; [by left|]. by apply raised_in_nil in He.
    + intros [He|(j & t & Hj & _)]; [by left|done].
  - destruct (finish_shape t w Ht) as [Hj Hone].
    destruct (finish env func t w) as [rs w1]. cbn [fst] in *.
    set (failed1 := match raised rs with
                    | Some e => report failed e
                    | None => failed
                    end).
    assert (verdict failed1
              (λ e, (S e ∨ raised_in (done t ++ rs) e) ∨ raised_so_far ts e))
      as Hv1.
    { subst failed1. destruct (raised rs) as [e0|] eqn:Hr.
      - eapply verdict_report; [|exact Hv]. intros e.
        rewrite raised_in_app. split.
        + intros [[He|[He|He]]|(j & t' & Hj' & Hin)].
          * right. by left.
          * right. right. by exists 0, t.
          * left. apply Hone in He. congruence.
          * right. right. by exists (Datatypes.S j), t'.
        + intros [->|[He|(j & t' & Hj' & Hin)]].
          * left. right. right. by apply raised_Some.
          * left. by left.
          * destruct j as [|j]; cbn in Hj'.
            -- injection Hj' as <-. left. right. by left.
            -- right. by exists j, t'.
      - eapply verdict_ext; [|exact Hv]. intros e.
        rewrite raised_in_app. split.
        + intros [[He|[He|He]]|(j & t' & Hj' & Hin)].
          * by left.
          * right. by exists 0, t.
          * by apply raised_None in He.
          * right. by exists (Datatypes.S j), t'.
        + intros [He|(j & t' & Hj' & Hin)].
          * left. by left.
          * destruct j as [|j]; cbn in Hj'.
            -- injection Hj' as <-. left. right. by left.
            -- right. by exists j, t'. }
    destruct (IH w1 failed1 _ Hv1) as [Hjs Hvs].
    destruct (drain env func ts w1 failed1) as [[rss w2] failed2].
    cbn [fst snd] in *. split; [by apply justified_app|].
    eapply verdict_ext; [|exact Hvs]. intros e.
    rewrite (raised_in_app (done t ++ rs) rss). tauto.
Qed.

(** What [map] is bound to do, against what became of the items. *)
Lemma pool_end_shape n sched items w :
  let r := pool_end env n sched func items w in
  justified r.1.1 ∧ verdict r.2 (raised_in r.1.1).
Proof.
  cbv zeta. unfold pool_end.
  set (ts := (λ chunk, Task false false [] None chunk) <$> _).
  assert (Forall shape_ok ts) as Hts.
  { apply Forall_fmap, Forall_true. intros chunk.
    split; [by constructor|]. split; [|done].
    intros _ e He. by apply raised_in_nil in He. }
  assert (verdict None (raised_so_far ts)) as Hv.
  { intros e (j & t & Hj & He). subst ts.
    rewrite list_lookup_fmap in Hj.
    destruct (_ !! j); [|done]. injection Hj as <-.
    by apply raised_in_nil in He. }
  destruct (schedule_shape n sched ts w None Hts Hv) as [Hts' Hv'].
  destruct (foldl _ _ sched) as [[ts1 w1] failed]. cbn [fst snd] in *.
  destruct (drain_shape ts1 w1 failed (λ _, False) Hts') as [Hj Hvd].
  { eapply verdict_ext; [|exact Hv']. tauto. }
  split; [done|]. eapply verdict_ext; [|exact Hvd]. tauto.
Qed.

End PoolShape.
(** ** Invariants of the pool *)

Section PoolInvariant.

Context {obj E R : Type}.
Variable env : environment obj E.
Variable func : string → prog obj R.
(** An invariant [J] of the world, an invariant [P] of an item (for its
    name, the calls it has made and what is left of it), and what it
    gives when the item has ended ([F]). *)
Variable J : world E → Prop.
Variable P : string → list (event obj) → prog obj R → Prop.
Variable F : string → list (event obj) → exn + R → Prop.

Hypothesis step_P : ∀ x l p w,
  J w → P x l p →
  P x (l ++ (step env p w).2) (step env p w).1.1 ∧ J (step env p w).1.2.
Hypothesis exec_F : ∀ x l p w,
  J w → P x l p →
  F x (l ++ trace (exec env p w)) (outcome (exec env p w))
  ∧ J (final (exec env p w)).

Lemma entry_ok_NotRun (chunk : list string) :
  Forall2 (entry_ok F) chunk
    ((λ _, ([], inl NotRun)) <$> chunk
       : list (list (event obj) * (no_result + R))).
Proof. apply Forall2_fmap_r, Forall_Forall2_diag, Forall_true. done. Qed.

Lemma mapstar_ok chunk w :
  J w → Forall (λ x, P x [] (func x)) chunk →
  Forall2 (entry_ok F) chunk (mapstar env func chunk w).1
  ∧ J (mapstar env func chunk w).2.
Proof.
  intros Hw Hchunk. revert w Hw.
  induction Hchunk as [|x chunk Hx Hchunk IH]; intros w Hw; cbn [mapstar].
  - split; [constructor|done].
  - destruct (exec_F x [] (func x) w Hw Hx) as [Hf Hw1].
    cbn [app] in Hf.
    destruct (outcome (exec env (func x) w)) as [e|a]; cbn [fst snd].
    + split; [|done]. constructor; [exact Hf|apply entry_ok_NotRun].
    + destruct (IH _ Hw1) as [Hrs Hw2].
      destruct (mapstar env func chunk _) as [rs w2]. cbn [fst snd] in *.
      split; [|done]. constructor; done.
Qed.

Lemma finish_ok chunk t w :
  J w → chunk_ok func P F chunk t →
  Forall2 (entry_ok F) chunk (done t ++ (finish env func t w).1)
  ∧ J (finish env func t w).2.
Proof.
  intros Hw (xs & ys & -> & Hdone & Hcur & Hend & Hrest). unfold finish.
  destruct (ended t) eqn:He; cbn [fst snd].
  - rewrite (Hend eq_refl) in Hcur. subst ys. cbn [app].
    split; [|done]. apply Forall2_app; [done|apply entry_ok_NotRun].
  - destruct (cur t) as [[l p]|].
    + destruct Hcur as (x & -> & Hp).
      destruct (exec_F x l p w Hw Hp) as [Hf Hw1].
      destruct (outcome (exec env p w)) as [e|a]; cbn [fst snd].
      * split; [|done]. apply Forall2_app; [done|].
        constructor; [exact Hf|apply entry_ok_NotRun].
      * destruct (mapstar_ok (rest t) _ Hw1 Hrest) as [Hrs Hw2].
        destruct (mapstar env func (rest t) _) as [rs w2].
        cbn [fst snd] in *. split; [|done].
        apply Forall2_app; [done|]. constructor; done.
    + subst ys. destruct (mapstar_ok (rest t) w Hw Hrest) as [Hrs Hw2].
      split; [|done]. apply Forall2_app; done.
Qed.

Lemma tick_ok n chunks ts w failed i :
  J w → Forall2 (chunk_ok func P F) chunks ts →
  let st := tick env func n (ts, w, failed) i in
  Forall2 (chunk_ok func P F) chunks st.1.1 ∧ J st.1.2.
Proof.
  intros Hw Hts. cbv zeta. unfold tick.
  destruct (ts !! i) as [t|] eqn:Hi; [|done].
  destruct (ended t) eqn:He; [done|].
  destruct (started t || _); [|done].
  destruct (Forall2_lookup_r _ _ _ _ _ Hts Hi) as (chunk & Hchunk & Hok).
  assert (∀ t' w', chunk_ok func P F chunk t' → J w' →
            Forall2 (chunk_ok func P F) chunks (<[i := t']> ts) ∧ J w')
    as Hset.
  { intros t' w' Ht' Hw'. split; [|done].
    rewrite <- (list_insert_id chunks i chunk Hchunk).
    by apply Forall2_insert. }
  destruct Hok as (xs & ys & -> & Hdone & Hcur & _ & Hrest).
  destruct (cur t) as [[l p]|] eqn:Hc.
  - destruct Hcur as (x & -> & Hp).
    destruct (exec_F x l p w Hw Hp) as [Hf _].
    destruct (step_P x l p w Hw Hp) as [Hp' Hw'].
    destruct p as [a|e0|c k|body handler].
    + cbn [fst snd]. apply Hset; [|done].
      exists (xs ++ [x]), []. cbn [done cur rest ended app].
      split; [by rewrite <- app_assoc|].
      split; [|done]. apply Forall2_app; [done|].
      constructor; [|constructor]. cbn in Hf. by rewrite app_nil_r in Hf.
    + cbn [fst snd]. apply Hset; [|done].
      exists (xs ++ [x]), []. cbn [done cur rest ended app].
      split; [by rewrite <- app_assoc|].
      split; [|done]. apply Forall2_app; [done|].
      constructor; [|constructor]. cbn in Hf. by rewrite app_nil_r in Hf.
    + destruct (step env (Call c k) w) as [[p' w1] evs]. cbn [fst snd] in *.
      apply Hset; [|done]. exists xs, [x]. cbn [done cur rest ended].
      split; [done|]. split; [done|]. split; [by exists x|done].
    + destruct (step env (TryExcept body handler) w) as [[p' w1] evs].
      cbn [fst snd] in *.
      apply Hset; [|done]. exists xs, [x]. cbn [done cur rest ended].
      split; [done|]. split; [done|]. split; [by exists x|done].
  - subst ys. cbn [app] in *.
    destruct (rest t) as [|x rest'] eqn:Hr; cbn [fst snd].
    + apply Hset; [|done]. exists xs, []. cbn [done cur rest ended].
      split; [done|]. split; [done|]. split; [done|]. split; [done|].
      constructor.
    + apply Hset; [|done]. exists xs, [x]. cbn [done cur rest ended].
      apply Forall_cons in Hrest as [Hx Hrest'].
      split; [done|]. split; [done|]. split; [by exists x|done].
Qed.

Lemma schedule_ok n sched chunks ts w failed :
  J w → Forall2 (chunk_ok func P F) chunks ts →
  let st := foldl (tick env func n) (ts, w, failed) sched in
  Forall2 (chunk_ok func P F) chunks st.1.1 ∧ J st.1.2.
Proof.
  revert ts w failed.
  induction sched as [|i sched IH]; intros ts w failed Hw Hts; [done|].
  cbn [foldl]. destruct (tick_ok n chunks ts w failed i Hw Hts) as [Hts' Hw'].
  destruct (tick env func n (ts, w, failed) i) as [[ts' w'] failed'].
  by apply IH.
Qed.

Lemma drain_ok chunks ts w failed :
  J w → Forall2 (chunk_ok func P F) chunks ts →
  let r := drain env func ts w failed in
  Forall2 (entry_ok F) (concat chunks) r.1.1 ∧ J r.1.2.
Proof.
  intros Hw Hts. revert w failed Hw.
  induction Hts as [|chunk t chunks ts Ht Hts IH]; intros w failed Hw;
    cbn [drain concat].
  - split; [constructor|done].
  - destruct (finish_ok chunk t w Hw Ht) as [Hrs Hw1].
    destruct (finish env func t w) as [rs w1]. cbn [fst snd] in *.
    match goal with
    | |- context [drain env func ts w1 ?f] =>
        destruct (IH w1 f Hw1) as [Hrss Hw2];
        destruct (drain env func ts w1 f) as [[rss w2] failed2]
    end.
    cbn [fst snd] in *. split; [|done]. by apply Forall2_app.
Qed.

Lemma pool_end_ok n sched items w :
  (1 ≤ n)%Z → J w → (∀ x, x ∈ items → P x [] (func x)) →
  let r := pool_end env n sched func items w in
  Forall2 (entry_ok F) items r.1.1 ∧ J r.1.2.
Proof.
  intros Hn Hw Hfunc. cbv zeta. unfold pool_end.
  set (chunks := get_tasks _ items (length items)).
  assert (concat chunks = items) as Hcat.
  { destruct items as [|x items]; [done|].
    apply get_tasks_concat; [|done].
    apply chunksize_pos; [cbn [length]; lia|done]. }
  assert (Forall2 (chunk_ok func P F) chunks
            ((λ chunk, Task false false [] None chunk) <$> chunks)) as Hts.
  { apply Forall2_fmap_r, Forall_Forall2_diag, Forall_forall.
    intros chunk Hin. exists [], []. cbn [done cur rest ended app].
    split; [done|]. split; [constructor|]. split; [done|]. split; [done|].
    apply Forall_forall. intros x Hx. apply Hfunc. rewrite <- Hcat.
    by apply (elem_of_concat x chunk). }
  destruct (schedule_ok n sched chunks _ w None Hw Hts) as [Hts' Hw'].
  destruct (foldl _ _ sched) as [[ts1 w1] failed]. cbn [fst snd] in *.
  rewrite <- Hcat. by apply drain_ok.
Qed.

End PoolInvariant.

Section PoolFacts.

Context {obj E R : Type}.
Variable env : environment obj E.
Implicit Types (rs : list (list (event obj) * (no_result + R))).

(** Whatever holds of all behaviours of the items holds of the calls
    each item made and of how it ended, if it was run, under any
    schedule. *)
Lemma pool_run_wp n sched (func : string → prog obj R) items w
    (Q : string → list (event obj) → exn + R → Prop) :
  (1 ≤ n)%Z →
  (∀ x, x ∈ items → wp (func x) (Q x)) →
  Forall2 (entry_ok Q) items (pool_run env n sched func items w).1.
Proof.
  intros Hn Hwp.
  refine (proj1 (pool_end_ok env func (λ _, True)
            (λ x l p, wp p (λ t o, Q x (l ++ t) o)) Q _ _
            n sched items w Hn I _)).
  - intros x l p w' _ Hp. split; [|done].
    eapply wp_mono; [|apply (step_wp env), Hp].
    intros t o. cbn beta. by rewrite app_assoc.
  - intros x l p w' _ Hp. split; [|done].
    exact (exec_wp env p _ w' Hp).
  - intros x Hx. cbn beta. apply Hwp, Hx.
Qed.

(** The same for what holds under the given environment, over worlds
    that satisfy an invariant. *)
Lemma pool_run_always (I : world E → Prop) n sched
    (func : string → prog obj R) items w (Q : string → exn + R → Prop) :
  (1 ≤ n)%Z → preserved env I → I w →
  (∀ x, x ∈ items → always env I (func x) (Q x)) →
  Forall2 (entry_ok (λ x _, Q x)) items (pool_run env n sched func items w).1
  ∧ I (pool_run env n sched func items w).2.
Proof.
  intros Hn HI Hw Hal.
  refine (pool_end_ok env func I (λ x _ p, always env I p (Q x))
            (λ x _ o, Q x o) _ _ n sched items w Hn Hw _).
  - intros x l p w' Hw' Hp. by apply step_always.
  - intros x l p w' Hw' Hp. by apply exec_always.
  - intros x Hx. apply Hal, Hx.
Qed.

(** The results that are there are all the results when every item has
    one. *)
Lemma returned_all rs :
  Forall (λ r, ∃ a, r.2 = inr a) rs → rs.*2 = inr <$> returned rs.
Proof.
  induction 1 as [|[l o] rs [a Ha] _ IH]; [done|].
  cbn [snd] in Ha. subst o. unfold returned in *.
  rewrite fmap_cons. cbn [omap list_omap snd]. rewrite fmap_cons.
  by rewrite IH.
Qed.

(** [map] returns when no item raised, with the results of all items,
    in the world the workers left. *)
Lemma pool_map_inr n sched (func : string → prog obj R) items w rl w' :
  pool_map env n sched func items w = (inr rl, w') →
  (1 ≤ n)%Z ∧
  (pool_run env n sched func items w).1.*2 = inr <$> rl ∧
  (pool_run env n sched func items w).2 = w'.
Proof.
  unfold pool_map, pool_run. case_bool_decide as Hn; [done|].
  destruct (pool_end_shape env func n sched items w) as [Hj Hv].
  destruct (pool_end env n sched func items w) as [[rs w1] failed].
  cbn [fst snd] in *. destruct failed as [f|]; [done|].
  intros [= <- <-]. split; [lia|]. split; [|done].
  apply returned_all, Hj. exact Hv.
Qed.

(** [map] fails when an item raised: it waits for ever if the
    exception of some item is not an [Exception], and raises the
    exception of some item otherwise. *)
Lemma pool_map_raised n sched (func : string → prog obj R) items w e :
  (1 ≤ n)%Z →
  raised_in (pool_run env n sched func items w).1 e →
  ∃ f, (pool_map env n sched func items w).1 = inl f ∧
       (is_Exception e = false → f = Blocks) ∧
       ∀ e', f = Raises e' →
             is_Exception e' = true ∧
             raised_in (pool_run env n sched func items w).1 e'.
Proof.
  intros Hn. unfold pool_map, pool_run.
  rewrite bool_decide_false by lia.
  destruct (pool_end_shape env func n sched items w) as [_ Hv].
  destruct (pool_end env n sched func items w) as [[rs w1] failed].
  cbn [fst snd] in *. intros He.
  destruct failed as [[e0|]|]; cbn [verdict] in Hv.
  - destruct Hv as [He0 Hall]. exists (Raises e0). split; [done|]. split.
    + intros Hne. rewrite (Hall e He) in Hne. done.
    + intros e' [= <-]. split; [by apply Hall|done].
  - exists Blocks. done.
  - by destruct (Hv e).
Qed.

(** [map] returns the results of the items when all have one. *)
Lemma pool_map_all n sched (func : string → prog obj R) items w rl :
  (1 ≤ n)%Z →
  (pool_run env n sched func items w).1.*2 = inr <$> rl →
  pool_map env n sched func items w
  = (inr rl, (pool_run env n sched func items w).2).
Proof.
  intros Hn. unfold pool_map, pool_run.
  rewrite bool_decide_false by lia.
  destruct (pool_end_shape env func n sched items w) as [_ Hv].
  destruct (pool_end env n sched func items w) as [[rs w1] failed].
  cbn [fst snd] in *. intros Hrs.
  assert (returned rs = rl) as Hret.
  { clear Hv. revert rl Hrs.
    induction rs as [|[l o] rs IH]; intros [|a rl] [=]; [done|].
    subst o. unfold returned in *. cbn [omap list_omap snd].
    f_equal. by apply IH. }
  destruct failed as [f|]; [|by rewrite Hret].
  assert (∃ e, raised_in rs e) as (e & l & Hin).
  { destruct f as [e0|]; [by exists e0; apply Hv|].
    destruct Hv as (e & He & _). by exists e. }
  apply (list_elem_of_fmap_2 snd) in Hin. rewrite Hrs in Hin. cbn [snd] in Hin.
  apply list_elem_of_fmap in Hin as (a & [=] & _).
Qed.

End PoolFacts.
(** ** The dictionary built from the list of results *)

Section ToDict.

Context {V : Type}.
Implicit Types (l : list (string * V)) (m : gmap string V).

Lemma foldl_insert_other l m x :
  x ∉ l.*1 →
  foldl (λ d '(ads, res), <[ads := res]> d) m l !! x = m !! x.
Proof.
  revert m. induction l as [|[y v] l IH]; intros m Hx; [done|].
  rewrite fmap_cons in Hx. apply not_elem_of_cons in Hx as [Hxy Hx].
  cbn [foldl]. rewrite IH by done.
  apply lookup_insert_ne. intros ->. by apply Hxy.
Qed.

Lemma foldl_insert_dom l m :
  dom (foldl (λ d '(ads, res), <[ads := res]> d) m l)
  = dom m ∪ list_to_set l.*1.
Proof.
  revert m. induction l as [|[y v] l IH]; intros m.
  - rewrite fmap_nil, list_to_set_nil. cbn [foldl].
    by rewrite (right_id_L ∅ (∪)).
  - cbn [foldl]. rewrite IH, dom_insert_L, fmap_cons, list_to_set_cons.
    cbn [fst]. by rewrite (comm_L (∪) {[y]} (dom m)), (assoc_L (∪)).
Qed.

(** The keys are the names in the list. *)
Lemma to_dict_dom l : dom (to_dict l) = list_to_set l.*1.
Proof.
  unfold to_dict. rewrite (foldl_insert_dom l ∅), dom_empty_L.
  by rewrite (left_id_L ∅ (∪)).
Qed.

(** A pair decides its key's value unless a later pair has the key. *)
Lemma to_dict_lookup l i x v :
  l !! i = Some (x, v) →
  (∀ j, i < j → l.*1 !! j ≠ Some x) →
  to_dict l !! x = Some v.
Proof.
  intros Hi Hlast.
  destruct (list_elem_of_split_length l i (x, v) Hi) as (l1 & l2 & -> & ->).
  unfold to_dict. rewrite foldl_app. cbn [foldl].
  rewrite foldl_insert_other.
  - apply lookup_insert_eq.
  - intros Hin. apply list_elem_of_lookup in Hin as [j Hj].
    apply (Hlast (length l1 + S j)); [lia|].
    rewrite fmap_app, fmap_cons.
    rewrite lookup_app_r by (rewrite length_fmap; lia).
    rewrite length_fmap.
    replace (length l1 + S j - length l1) with (S j) by lia.
    exact Hj.
Qed.

End ToDict.

(** ** The dispatcher *)

Lemma executor_wp {obj} ads_name base_dir :
  wp (run_adsorbate_pipeline (obj:=obj) ads_name base_dir)
     (executor_post ads_name).
Proof.
  executor_cases. all: cbv beta iota delta [executor_post].
  all: try (split; [done|]).
  all: try (match goal with
            | |- context [Ev ?c (inl ?e)] => exists (Ev c (inl e)), e
            end; split; [|reflexivity]; solve [in_list]).
  split.
  - rewrite !dom_insert_L, dom_empty_L, (right_id_L ∅ (∪)).
    apply (comm_L (∪)).
  - intros ev Hin. in_cases; subst; reflexivity.
Qed.

Section Dispatcher.

Context {obj E : Type}.
Implicit Types (env : environment obj E) (w : world E).
Implicit Types (items : list string) (sched : list nat).

(** The dispatcher returns the dictionary of the pool's results, in the
    world the pool left. *)
Lemma dispatch_inr env sched items base_dir n_cores w results w' :
  run_adsorbate_list_parallel env sched items base_dir n_cores w
  = (inr results, w') →
  ∃ n w1 results_list,
    dispatch_setup env items base_dir n_cores w = (inr n, w1) ∧
    pool_map env n sched (λ a, run_adsorbate_pipeline a base_dir) items w1
    = (inr results_list, w') ∧
    results = to_dict results_list.
Proof.
  unfold run_adsorbate_list_parallel, proc_bind, proc_ret.
  destruct (dispatch_setup env items base_dir n_cores w) as [[e|n] w1];
    [done|].
  destruct (pool_map env n sched _ items w1) as [[e|rl] w2] eqn:Hp; [done|].
  intros [= <- <-]. exists n, w1, rl. done.
Qed.

(** What the pool returns for the executor: the results of the items,
    in their order, each item's calls and outcome being a behaviour of
    the executor for it. *)
Lemma pool_map_executor env n sched items base_dir w results_list w' :
  let worker := λ a, run_adsorbate_pipeline (obj:=obj) a base_dir in
  pool_map env n sched worker items w = (inr results_list, w') →
  (pool_run env n sched worker items w).1.*2 = inr <$> results_list
  ∧ Forall2 (entry_ok executor_post) items
      (pool_run env n sched worker items w).1.
Proof.
  intros worker Hmap. apply pool_map_inr in Hmap as (Hn & Hrs & _).
  split; [done|].
  apply pool_run_wp; [done|]. intros x _. apply executor_wp.
Qed.

(** The names of the returned pairs are the items. *)
Lemma pool_map_names env n sched items base_dir w results_list w' :
  pool_map env n sched (λ a, run_adsorbate_pipeline a base_dir) items w
  = (inr results_list, w') →
  results_list.*1 = items.
Proof.
  intros Hm. apply pool_map_executor in Hm as [Hrs Hpost].
  cbv zeta in *.
  destruct (pool_run env n sched _ items w) as [rs w1]. cbn [fst] in *.
  revert results_list Hrs.
  induction Hpost as [|x [t o] items rs Hx Hpost IH];
    intros [|[name res] rl] Hrs; try done.
  rewrite !fmap_cons in Hrs. injection Hrs as -> Hrs.
  rewrite fmap_cons. cbn [fst snd] in *. f_equal; [|by apply IH].
  unfold entry_ok in Hx. cbn [fst snd executor_post] in Hx.
  destruct res; by destruct Hx.
Qed.

End Dispatcher.

Section Dispatcher2.

Context {obj E : Type}.
Implicit Types (env : environment obj E) (w : world E).
Implicit Types (items : list string) (sched : list nat).

(** The dispatcher returns the dictionary of the results when every
    item has one. *)
Lemma dispatch_all env sched items base_dir n_cores w n w1 :
  dispatch_setup env items base_dir n_cores w = (inr n, w1) →
  (1 ≤ n)%Z →
  no_raise (pool_run env n sched
              (λ a, run_adsorbate_pipeline a base_dir) items w1).1 →
  ∃ results,
    (run_adsorbate_list_parallel env sched items base_dir n_cores w).1
    = inr results.
Proof.
  intros Hsetup Hn Hno.
  unfold run_adsorbate_list_parallel, proc_bind, proc_ret. rewrite Hsetup.
  pose proof (proj1 (pool_end_shape env
                       (λ a, run_adsorbate_pipeline a base_dir)
                       n sched items w1) Hno) as Hall.
  apply returned_all in Hall.
  rewrite (pool_map_all env n sched _ items w1 _ Hn Hall).
  by eexists.
Qed.

(** C2, as the code has it.  For a non-empty list of distinct names:
    whenever the dispatcher returns a dictionary, the keys are exactly
    the names, and each name maps to the result of its own item: [None]
    if a call of that item raised, a dictionary with both barriers
    otherwise; and the dispatcher does return a dictionary when its
    setup succeeds with at least one process and no item raises past
    the executor. *)
Theorem dispatch_keys env sched items base_dir n_cores w :
  items ≠ [] → NoDup items →
  let worker := λ a, run_adsorbate_pipeline (obj:=obj) a base_dir in
  let r := run_adsorbate_list_parallel env sched items base_dir n_cores w in
  (∀ results, r.1 = inr results →
     dom results = list_to_set items ∧
     ∃ n w1, dispatch_setup env items base_dir n_cores w = (inr n, w1) ∧
       ∀ i x, items !! i = Some x →
         ∃ t res,
           (pool_run env n sched worker items w1).1 !! i
             = Some (t, inr (x, res)) ∧
           results !! x = Some res ∧
           match res with
           | None => ∃ ev e, ev ∈ t ∧ ev_raised ev = Some e
           | Some d => dom d = {[ "translation"; "rotation" ]} ∧
                       ∀ ev, ev ∈ t → ev_raised ev = None
           end) ∧
  (∀ n w1, dispatch_setup env items base_dir n_cores w = (inr n, w1) →
           (1 ≤ n)%Z →
           no_raise (pool_run env n sched worker items w1).1 →
           ∃ results, r.1 = inr results).
Proof.
  intros _ Hnodup worker r. split.
  - intros results Hr.
    destruct r as [o w'] eqn:Hrun. cbn [fst] in Hr. subst o.
    apply dispatch_inr in Hrun as (n & w1 & rl & Hsetup & Hmap & ->).
    pose proof (pool_map_names _ _ _ _ _ _ _ _ Hmap) as Hnames.
    split; [by rewrite to_dict_dom, Hnames|].
    exists n, w1. split; [done|]. intros i x Hi.
    apply pool_map_executor in Hmap as [Hrs Hpost]. fold worker in Hrs, Hpost.
    destruct (Forall2_lookup_l _ _ _ _ _ Hpost Hi) as ([t o] & Ht & Hx).
    assert (rl.*1 !! i = Some x) as Hrl by by rewrite Hnames.
    rewrite list_lookup_fmap in Hrl.
    destruct (rl !! i) as [[name res]|] eqn:Hrli; [|done].
    injection Hrl as ->.
    assert (o = inr (x, res)) as ->.
    { apply (f_equal (.!! i)) in Hrs.
      rewrite !list_lookup_fmap, Ht, Hrli in Hrs. by injection Hrs. }
    exists t, res. split; [done|]. split.
    + apply (to_dict_lookup rl i); [done|].
      intros j Hj Hxj. rewrite Hnames in Hxj.
      pose proof (NoDup_lookup _ _ _ _ Hnodup Hi Hxj). lia.
    + unfold entry_ok in Hx. cbn [fst snd executor_post] in Hx.
      destruct res; by destruct Hx.
  - intros n w1 Hsetup Hn Hno. subst r. by eapply dispatch_all.
Qed.

(** C5. The dictionary the dispatcher returns is built from the list
    [pool.map] returned, whose names are the items in order, and nothing
    else happens after [pool.map] (the world is the one it left): a
    pair decides the value of its name unless the name occurs again
    later in the list, in which case the later pair does. *)
Theorem dispatch_last_write_wins env sched items base_dir n_cores w
    results w' :
  run_adsorbate_list_parallel env sched items base_dir n_cores w
  = (inr results, w') →
  ∃ n w1 results_list,
    dispatch_setup env items base_dir n_cores w = (inr n, w1) ∧
    pool_map env n sched (λ a, run_adsorbate_pipeline a base_dir) items w1
    = (inr results_list, w') ∧
    results_list.*1 = items ∧
    ∀ i x res,
      results_list !! i = Some (x, res) →
      (∀ j, i < j → items !! j ≠ Some x) →
      results !! x = Some res.
Proof.
  intros Hrun.
  apply dispatch_inr in Hrun as (n & w1 & rl & Hsetup & Hmap & ->).
  pose proof (pool_map_names _ _ _ _ _ _ _ _ Hmap) as Hnames.
  exists n, w1, rl. do 3 (split; [done|]).
  intros i x res Hi Hlast. apply (to_dict_lookup rl i); [done|].
  by rewrite Hnames.
Qed.

(** Where every item that was run returned [f x], every item was run. *)
Lemma entries_deterministic {R} (f : string → R) items
    (rs : list (list (event obj) * (no_result + R))) :
  Forall2 (entry_ok (λ x _ o, o = inr (f x))) items rs →
  justified rs →
  rs.*2 = inr <$> (f <$> items).
Proof.
  intros Hrs Hj.
  assert (no_raise rs) as Hno.
  { intros e [l Hin]. apply list_elem_of_lookup in Hin as [i Hi].
    destruct (Forall2_lookup_r _ _ _ _ _ Hrs Hi) as (x & _ & Hx).
    discriminate Hx. }
  specialize (Hj Hno). clear Hno.
  induction Hrs as [|x [t o] items rs Hx _ IH]; [done|].
  apply Forall_cons in Hj as [[a Ha] Hj]. cbn [snd] in Ha. subst o.
  rewrite !fmap_cons. cbn [snd]. unfold entry_ok in Hx. cbn [snd] in Hx.
  injection Hx as ->. f_equal. by apply IH.
Qed.

(** The pool under a deterministic pipeline: the results do not depend
    on the schedule or on the number of processes. *)
Lemma pool_map_deterministic {R} env (I : world E → Prop) (f : string → R)
    n sched (func : string → prog obj R) items w :
  preserved env I → I w → (1 ≤ n)%Z →
  (∀ x, x ∈ items → always env I (func x) (λ o, o = inr (f x))) →
  (pool_map env n sched func items w).1 = inr (f <$> items)
  ∧ I (pool_map env n sched func items w).2.
Proof.
  intros HI Hw Hn Hdet.
  destruct (pool_run_always env I n sched func items w
              (λ x o, o = inr (f x)) Hn HI Hw Hdet) as [Hrs Hw'].
  assert ((pool_run env n sched func items w).1.*2 = inr <$> (f <$> items))
    as Hall.
  { apply entries_deterministic; [done|].
    apply (pool_end_shape env func n sched items w). }
  rewrite (pool_map_all env n sched func items w _ Hn Hall). done.
Qed.

(** C6, as the code has it. For a non-empty list of items and a
    pipeline that is deterministic per item (over the worlds the batch
    can reach, the executor always ends with [f x] for item [x]), the
    dispatcher started with one process and the dispatcher started with
    as many processes as items end the same way from the same world,
    whatever the schedules. *)
Theorem dispatch_worker_count_independent env (I : world E → Prop)
    (f : string → string * @TaskResult obj) sched1 sched2 items base_dir w :
  items ≠ [] →
  preserved env I → I w →
  (∀ x, x ∈ items →
        always env I (run_adsorbate_pipeline x base_dir)
          (λ o, o = inr (f x))) →
  (run_adsorbate_list_parallel env sched1 items base_dir (Some 1%Z) w).1
  = (run_adsorbate_list_parallel env sched2 items base_dir
       (Some (Z.of_nat (length items))) w).1.
Proof.
  intros Hne HI Hw Hdet.
  assert (1 ≤ Z.of_nat (length items))%Z as Hlen
    by (destruct items; [done|cbn [length]; lia]).
  assert (∀ n sched, (1 ≤ n)%Z →
    (run_adsorbate_list_parallel env sched items base_dir (Some n) w).1
    = match (handle env (os_makedirs base_dir true) w).1 with
      | inl e => inl (Raises e)
      | inr _ =>
          match stdout_error w with
          | Some e => inl (Raises e)
          | None => inr (to_dict (f <$> items))
          end
      end) as Hrun.
  { intros n sched Hn.
    unfold run_adsorbate_list_parallel, dispatch_setup, proc_bind, proc_ret,
      proc_call.
    pose proof (HI (os_makedirs base_dir true) w Hw) as Hw1.
    cbn [handle] in *.
    destruct (makedirs base_dir true (fs w)) as [[e|[]] fs1];
      [done|]. cbn [snd fst] in *.
    match goal with
    | |- context [py_print ?s ?w1] =>
        pose proof (HI (print s) w1 Hw1) as Hw2; cbn [handle] in Hw2;
        unfold py_print in *
    end.
    cbn [stdout_error] in *.
    destruct (stdout_error w) as [e|]; [done|]. cbn [snd] in Hw2.
    pose proof (pool_map_deterministic env I f n sched
                  (λ a, run_adsorbate_pipeline a base_dir) items _
                  HI Hw2 Hn Hdet) as [Hmap _].
    destruct (pool_map env n sched _ items _) as [o w3].
    cbn [fst] in Hmap. by subst o. }
  rewrite (Hrun 1%Z sched1) by lia. by rewrite (Hrun _ sched2).
Qed.

End Dispatcher2.

(** ** Runs on the mock *)

Example executor_success :
  outcome (exec (mock no_fault) (run_adsorbate_pipeline "CO" "Adsorbates") w0)
  = inr ("CO", Some (<["rotation" := "result:rotation"]>
                       (<["translation" := "result:translation"]> ∅))).
Proof. vm_compute. reflexivity. Qed.

Example executor_rotation_fails :
  outcome (exec (mock rotation_fails)
             (run_adsorbate_pipeline "CO" "Adsorbates") w0)
  = inr ("CO", None) ∧
  last (stdout (final (exec (mock rotation_fails)
                         (run_adsorbate_pipeline "CO" "Adsorbates") w0)))
  = Some " Error in adsorbate CO: NEB did not converge".
Proof. vm_compute. split; reflexivity. Qed.

(** C1, as stated, fails: a [KeyboardInterrupt] raised by a collaborator is
    not an instance of [Exception], so the executor's [except Exception]
    clause lets it through and the executor raises instead of returning
    [("CO", None)]. *)
Lemma executor_propagates_KeyboardInterrupt :
  outcome (exec (mock interrupt_opt_slab)
             (run_adsorbate_pipeline "CO" "Adsorbates") w0)
  = inl (Exn KeyboardInterrupt "").
Proof. vm_compute. reflexivity. Qed.

(** The handler itself can raise.  With the standard output closed, the
    announcement of the item raises [ValueError], which is caught, and
    the [print] of the handler raises it again, past the executor. *)
Example executor_raises_when_stdout_closed :
  let r := exec (mock no_fault) (run_adsorbate_pipeline "CO" "Adsorbates")
             w_closed in
  outcome r = inl (ValueError "I/O operation on closed file.") ∧
  drop 3 (trace r)
  = [Ev (print (nl +:+ "=== Starting adsorbate: CO ==="))
        (inl (ValueError "I/O operation on closed file."));
     Ev (print " Error in adsorbate CO: I/O operation on closed file.")
        (inl (ValueError "I/O operation on closed file."))].
Proof. vm_compute. split; reflexivity. Qed.

(** A fault whose [__str__] raises: [str(e)] in the handler raises past
    the executor, and nothing is printed for the fault. *)
Example executor_raises_on_unprintable_fault :
  let r := exec (mock unprintable_fault)
             (run_adsorbate_pipeline "CO" "Adsorbates") w0 in
  outcome r = inl (Exn (ExceptionSubclass "TypeError")
                     "__str__ returned non-string (type NoneType)") ∧
  stdout (final r) = [nl +:+ "=== Starting adsorbate: CO ==="].
Proof. vm_compute. split; reflexivity. Qed.

(** C2, as stated, fails: for the two distinct names [X1] and [X2] the
    dispatcher gives no mapping at all when [X2]'s worker is interrupted
    (the pool waits for the lost chunk for ever), when [X2]'s fault
    cannot be formatted (the exception the handler raises comes out of
    [pool.map]), or when [base_dir] cannot be created. *)
Lemma dispatch_gives_no_mapping :
  (run_adsorbate_list_parallel (mock x2_interrupted) [] ["X1"; "X2"]
     "Adsorbates" (Some 2%Z) w0).1 = inl Blocks ∧
  (run_adsorbate_list_parallel (mock x2_unprintable) [] ["X1"; "X2"]
     "Adsorbates" (Some 2%Z) w0).1
  = inl (Raises (Exn (ExceptionSubclass "TypeError")
                   "__str__ returned non-string (type NoneType)")) ∧
  (run_adsorbate_list_parallel (mock no_fault) [] ["X1"; "X2"]
     "Adsorbates" (Some 2%Z) w_blocked).1
  = inl (Raises (FileExistsError "Adsorbates")).
Proof. split; [|split]; vm_compute; reflexivity. Qed.

(** C6, as stated, fails on the empty list: with one process the
    dispatcher returns the empty dictionary, with as many processes as
    items, that is none, creating the pool raises [ValueError]. *)
Lemma dispatch_empty_list_worker_count :
  (run_adsorbate_list_parallel (mock no_fault) [] [] "Adsorbates"
     (Some 1%Z) w0).1 = inr ∅ ∧
  (run_adsorbate_list_parallel (mock no_fault) [] [] "Adsorbates"
     (Some (Z.of_nat (length (@nil string)))) w0).1
  = inl (Raises (ValueError "Number of processes must be at least 1")).
Proof. split; vm_compute; reflexivity. Qed.

(** The scenario of two items of which the second fails. *)
Example dispatch_x1_x2 :
  (run_adsorbate_list_parallel (mock x2_fails) [0; 1; 1; 0; 1; 0; 0; 1]
     ["X1"; "X2"] "Adsorbates" (Some 2%Z) w0).1
  = inr (<["X2" := None]>
           (<["X1" := Some (<["rotation" := "result:rotation"]>
                              (<["translation" := "result:translation"]> ∅))]>
              ∅)).
Proof. vm_compute. reflexivity. Qed.

(** The two processes interleave: both items are announced before either
    fails or ends. *)
Example dispatch_x1_x2_stdout :
  stdout (run_adsorbate_list_parallel (mock x2_fails)
            [0; 0; 0; 0; 0; 1; 1; 1; 1; 1; 0; 1; 1; 0; 1; 0]
            ["X1"; "X2"] "Adsorbates" (Some 2%Z) w0).2
  = [nl +:+ ">>> Running 2 adsorbates on 2 cores <<<";
     nl +:+ "=== Starting adsorbate: X1 ===";
     nl +:+ "=== Starting adsorbate: X2 ===";
     " Error in adsorbate X2: unknown molecule"].
Proof. vm_compute. reflexivity. Qed.

(** With one process the second item starts only after the first has
    ended, whatever the schedule asks for. *)
Example dispatch_one_process :
  (pool_run (mock no_fault) 1 [1; 0; 1; 1]
     (λ a, run_adsorbate_pipeline a "Adsorbates") ["X1"; "X2"] w0).1.*1
  = (pool_run (mock no_fault) 1 []
       (λ a, run_adsorbate_pipeline a "Adsorbates") ["X1"; "X2"] w0).1.*1.
Proof. vm_compute. reflexivity. Qed.

(** Five items on one process go in chunks of two.  Where the first
    item of a chunk raises past the executor, the second is never
    run. *)
Example pool_skips_rest_of_chunk :
  (pool_run (mock unprintable_fault) 1 []
     (λ a, run_adsorbate_pipeline a "Adsorbates")
     ["A"; "B"; "C"; "D"; "E"] w0).1.*2
  = let e := Exn (ExceptionSubclass "TypeError")
               "__str__ returned non-string (type NoneType)" in
    [inl (Raised e); inl NotRun; inl (Raised e); inl NotRun; inl (Raised e)].
Proof. vm_compute. reflexivity. Qed.

(** Two items of the same name: the second run's results are kept. *)
Example dispatch_duplicate :
  (run_adsorbate_list_parallel counting [] ["A"; "A"] "Adsorbates"
     (Some 2%Z) (World ∅ [] None 0)).1
  = inr (<["A" := Some (<["rotation" := "rotation#3"]>
                          (<["translation" := "translation#2"]> ∅))]> ∅).
Proof. vm_compute. reflexivity. Qed.

(** ** The mock is a deterministic pipeline *)

Lemma mkdir_walk_no_files ok pre rest fs :
  (∀ p, fs !! p ≠ Some File) →
  (ok = true → (mkdir_walk ok pre rest fs).1 = inr tt) ∧
  ∀ p, (mkdir_walk ok pre rest fs).2 !! p ≠ Some File.
Proof.
  unfold FS in *.
  revert pre fs. induction rest as [|c rest' IH]; intros pre fs Hfs.
  - split; [by intros ->|done].
  - assert (∀ p, <[pre ++ [c] := Dir]> fs !! p ≠ Some File) as Hins.
    { intros p. destruct (decide (pre ++ [c] = p)) as [<-|Hne].
      - by rewrite lookup_insert_eq.
      - by rewrite lookup_insert_ne. }
    destruct (fs !! (pre ++ [c])) as [[|]|] eqn:Hp.
    + rewrite (mkdir_walk_dir _ _ _ _ fs Hp). by apply IH.
    + by destruct (Hfs (pre ++ [c])).
    + rewrite (mkdir_walk_missing _ _ _ _ fs Hp).
      destruct rest' as [|c' rest'']; [done|]. by apply IH.
Qed.

Lemma string_app_nonempty (a b : string) : b ≠ "" → a +:+ b ≠ "".
Proof. destruct a; [done|]. discriminate. Qed.

Lemma os_path_join_nonempty a b : b ≠ "" → os_path_join a b ≠ "".
Proof.
  intros Hb. unfold os_path_join.
  destruct (startswith_sep b); [done|].
  destruct (bool_decide (a = "") || endswith_sep a).
  - by apply string_app_nonempty.
  - apply string_app_nonempty. discriminate.
Qed.

Lemma handle_makedirs_no_files {obj E} (env : environment obj E) name ok w :
  no_files w →
  no_files (handle env (os_makedirs name ok) w).2 ∧
  (name ≠ "" → ok = true → (handle env (os_makedirs name ok) w).1 = inr tt).
Proof.
  intros Hw. cbn [handle]. unfold no_files, makedirs.
  case_bool_decide; [done|].
  destruct (mkdir_walk_no_files ok [] (resolve name) (fs w) Hw) as [Hok Hfs].
  destruct (mkdir_walk ok [] (resolve name) (fs w)). cbn [fst snd fs] in *.
  split; [done|]. intros _. exact Hok.
Qed.

Lemma mock_preserves_fair : preserved (mock no_fault) fair.
Proof.
  intros c w [Hw Hout]. destruct c; try (by split).
  - split; [by apply handle_makedirs_no_files|].
    cbn [handle]. by destruct (makedirs name exist_ok (fs w)).
  - cbn [handle]. unfold py_print. rewrite Hout. by split.
Qed.

Lemma mock_deterministic x base_dir :
  always (mock no_fault) fair (run_adsorbate_pipeline x base_dir)
    (λ o, o = inr (mock_result x)).
Proof.
  unfold run_adsorbate_pipeline. cbv zeta. cbn [always].
  do 3 (intros w [Hw _];
        rewrite (proj2 (handle_makedirs_no_files (mock no_fault) _ true w Hw))
          by (done || by apply os_path_join_nonempty);
        clear w Hw).
  intros w [_ Hout]. cbn [handle]. unfold py_print. rewrite Hout.
  cbn [fst always]. clear w Hout.
  repeat (intros w _; cbn [handle mock no_fault canned fst always]; clear w).
  reflexivity.
Qed.

Lemma w0_fair : fair w0.
Proof.
  split; [|done]. intros p.
  exact (eq_ind None (λ o, o ≠ Some File) ltac:(discriminate) _
           (eq_sym (lookup_empty (M:=gmap (list string)) p))).
Qed.

(** No call raised in a run given in full. *)
Ltac run_fault_free :=
  intros ev Hin;
  match type of Hin with
  | _ ∈ ?t => let t' := eval vm_compute in t in change (ev ∈ t') in Hin
  end;
  in_cases; subst; reflexivity.

(** ** Witnesses *)

Lemma screening_results_reloaded_witness :
  let t := trace (exec (mock no_fault)
                    (run_adsorbate_pipeline "CO" "Adsorbates") w0) in
  let sdir := "Adsorbates/CO/Screening_Data" in
  let sr := "pickle:Adsorbates/CO/Screening_Data/screening_results.pkl" in
  t !! 12 = Some (Ev (best_site_results sr)
                     (inr (VTuple "df_sorted" ("best:" +:+ sr)))) ∧
  ∃ k slab ads raw report cleaned recovered,
    k + 4 < 12 ∧
    t !! k = Some (Ev (site_screening slab ads "site" true sdir)
                      (inr (VObj raw))) ∧
    t !! (k + 1) = Some (Ev (validate_screening_files sdir)
                            (inr (VObj report))) ∧
    t !! (k + 2) = Some (Ev (clean_incomplete_files sdir false)
                            (inr (VObj cleaned))) ∧
    t !! (k + 3) = Some (Ev (recover_screening_files sdir)
                            (inr (VObj recovered))) ∧
    t !! (k + 4) = Some (Ev (load_screening_results
                               (os_path_join sdir "screening_results.pkl"))
                            (inr (VObj sr))) ∧
    ∀ j path r', t !! j = Some (Ev (load_screening_results path) r') →
                 j = k + 4.
Proof.
  cbv zeta. split; [vm_compute; reflexivity|].
  apply (screening_results_reloaded (mock no_fault) "CO" "Adsorbates" w0 12
           (best_site_results
              "pickle:Adsorbates/CO/Screening_Data/screening_results.pkl")
           (inr (VTuple "df_sorted"
                   "best:pickle:Adsorbates/CO/Screening_Data/screening_results.pkl"))).
  - vm_compute. reflexivity.
  - reflexivity.
Defined.

Lemma site_screening_always_exhaustive_witness :
  let r := exec (mock no_fault) (run_adsorbate_pipeline "CO" "Adsorbates")
             w0 in
  ∃ i slab ads raw d,
    trace r !! i
    = Some (Ev (site_screening slab ads "site" true
                  "Adsorbates/CO/Screening_Data") (inr (VObj raw))) ∧
    (∀ j slab' ads' center_xy use_all_sites workdir r',
        trace r !! j
        = Some (Ev (site_screening slab' ads' center_xy use_all_sites workdir)
                  r') → j = i) ∧
    outcome r = inr ("CO", Some d).
Proof.
  cbv zeta.
  refine (proj1 (proj2 (proj2
            (site_screening_always_exhaustive (mock no_fault) "CO"
               "Adsorbates" w0))) _).
  run_fault_free.
Defined.

Lemma clean_always_destructive_witness :
  let r := exec (mock no_fault) (run_adsorbate_pipeline "CO" "Adsorbates")
             w0 in
  ∃ i cleaned d,
    trace r !! i
    = Some (Ev (clean_incomplete_files "Adsorbates/CO/Screening_Data" false)
              (inr (VObj cleaned))) ∧
    (∀ j dir dry_run r',
        trace r !! j = Some (Ev (clean_incomplete_files dir dry_run) r') →
        j = i) ∧
    outcome r = inr ("CO", Some d).
Proof.
  cbv zeta.
  refine (proj1 (proj2 (proj2
            (clean_always_destructive (mock no_fault) "CO"
               "Adsorbates" w0))) _).
  run_fault_free.
Defined.

Lemma path_search_configuration_witness :
  let r := exec (mock no_fault) (run_adsorbate_pipeline "CO" "Adsorbates")
             w0 in
  ∃ d t0 best_site sr ep1_t ep2_t images_t result_t
       ep1_r ep2_r images_r result_r,
    outcome r = inr ("CO", Some d) ∧
    trace r = t0 ++
      [Ev (select_neb_endpoints_translation best_site sr)
          (inr (VTuple ep1_t ep2_t));
       Ev (prepare_neb_calculation ep1_t ep2_t 10 "translation"
             "Adsorbates/CO/NEB_Translation")
          (inr (VTuple images_t result_t));
       Ev (select_neb_endpoints_rotation best_site sr 120)
          (inr (VTuple ep1_r ep2_r));
       Ev (prepare_neb_calculation ep1_r ep2_r 10 "rotation"
             "Adsorbates/CO/NEB_Rotation")
          (inr (VTuple images_r result_r))] ∧
    d !! "translation" = Some result_t ∧
    d !! "rotation" = Some result_r ∧
    ∀ ev, ev ∈ t0 → is_path_search (ev_call ev) = false.
Proof.
  cbv zeta.
  destruct (path_search_configuration (mock no_fault) "CO" "Adsorbates" w0)
    as (_ & _ & _ & _ & Hres & Hff).
  destruct Hff as [d Hd]; [run_fault_free|].
  destruct (Hres "CO" d Hd)
    as (t0 & best_site & sr & ep1_t & ep2_t & images_t & result_t
        & ep1_r & ep2_r & images_r & result_r & Ht & Htr & Hrot & Hno).
  exists d, t0, best_site, sr, ep1_t, ep2_t, images_t, result_t,
    ep1_r, ep2_r, images_r, result_r.
  split; [exact Hd|]. split; [exact Ht|]. split; [exact Htr|].
  split; [exact Hrot|exact Hno].
Defined.

Lemma dispatch_keys_witness :
  let r := run_adsorbate_list_parallel (mock x2_fails) [0; 1; 1; 0; 1; 0; 0; 1]
             ["X1"; "X2"] "Adsorbates" (Some 2%Z) w0 in
  (∃ results, r.1 = inr results) ∧
  dom (returned_dict r.1) = list_to_set ["X1"; "X2"] ∧
  returned_dict r.1 !! "X2" = Some None.
Proof.
  cbv zeta.
  destruct (dispatch_keys (mock x2_fails) [0; 1; 1; 0; 1; 0; 0; 1]
              ["X1"; "X2"] "Adsorbates" (Some 2%Z) w0)
    as [Hkeys Hreturns].
  - discriminate.
  - apply NoDup_cons. split; [|apply NoDup_singleton].
    intros Hin. apply list_elem_of_singleton in Hin. discriminate Hin.
  - split; [|split].
    + eapply (Hreturns 2%Z); [reflexivity|lia|].
      intros e [l Hin].
      match type of Hin with
      | _ ∈ ?rs => let rs' := eval vm_compute in rs in
                   change ((l, inl (Raised e)) ∈ rs') in Hin
      end.
      in_cases; discriminate Hin.
    + refine (proj1 (Hkeys _ _)). vm_compute. reflexivity.
    + vm_compute. reflexivity.
Defined.

Lemma dispatch_last_write_wins_witness :
  let w := World ∅ [] None 0 in
  let r := run_adsorbate_list_parallel counting [] ["A"; "A"] "Adsorbates"
             (Some 2%Z) w in
  ∃ n w1 results_list,
    dispatch_setup counting ["A"; "A"] "Adsorbates" (Some 2%Z) w = (inr n, w1) ∧
    pool_map counting n [] (λ a, run_adsorbate_pipeline a "Adsorbates")
      ["A"; "A"] w1 = (inr results_list, r.2) ∧
    results_list.*1 = ["A"; "A"] ∧
    ∀ i x res,
      results_list !! i = Some (x, res) →
      (∀ j, i < j → ["A"; "A"] !! j ≠ Some x) →
      returned_dict r.1 !! x = Some res.
Proof.
  cbv zeta. apply dispatch_last_write_wins. vm_compute. reflexivity.
Defined.

Lemma dispatch_worker_count_independent_witness :
  (run_adsorbate_list_parallel (mock no_fault) [0; 1; 0; 1]
     ["X1"; "X2"] "Adsorbates" (Some 1%Z) w0).1
  = (run_adsorbate_list_parallel (mock no_fault) [1; 1; 0; 0; 1]
       ["X1"; "X2"] "Adsorbates"
       (Some (Z.of_nat (length ["X1"; "X2"]))) w0).1.
Proof.
  apply (dispatch_worker_count_independent (mock no_fault) fair
           mock_result).
  - discriminate.
  - apply mock_preserves_fair.
  - apply w0_fair.
  - intros x _. apply mock_deterministic.
Defined.

(** ** More about the runtime model: paths and created directories *)

Lemma string_app_cons c (a b : string) :
  String c a +:+ b = String c (a +:+ b).
Proof. reflexivity. Qed.

Lemma string_app_empty_r (a : string) : a +:+ "" = a.
Proof.
  induction a as [|c a IH]; [done|]. by rewrite string_app_cons, IH.
Qed.

Lemma string_app_assoc (a b c : string) : (a +:+ b) +:+ c = a +:+ (b +:+ c).
Proof.
  induction a as [|x a IH]; [done|]. by rewrite !string_app_cons, IH.
Qed.

Lemma split_sep_app acc a b :
  split_sep acc (a +:+ "/" +:+ b) = split_sep acc a ++ split_sep "" b.
Proof.
  revert acc. induction a as [|c a IH]; intros acc.
  - reflexivity.
  - rewrite string_app_cons. cbn [split_sep]. case_bool_decide.
    + cbn [app]. f_equal. apply IH.
    + apply IH.
Qed.

Lemma endswith_sep_inv a : endswith_sep a = true → ∃ a0, a = a0 +:+ "/".
Proof.
  induction a as [|c a IH]; [done|]. destruct a as [|c' a'].
  - cbn. case_bool_decide; [|done]. subst c. by exists "".
  - intros H. destruct IH as [a0 ->]; [exact H|]. by exists (String c a0).
Qed.

(** Joining a relative second path appends its components. *)
Lemma resolve_os_path_join a b :
  startswith_sep b = false →
  resolve (os_path_join a b) = resolve a ++ resolve b.
Proof.
  intros Hb. unfold os_path_join. rewrite Hb. unfold resolve.
  destruct (bool_decide (a = "")) eqn:Ha; cbn [orb].
  - apply bool_decide_eq_true in Ha as ->. reflexivity.
  - destruct (endswith_sep a) eqn:Hs.
    + apply endswith_sep_inv in Hs as [a0 ->].
      rewrite string_app_assoc, split_sep_app.
      rewrite (split_sep_app "" a0 "" : split_sep "" (a0 +:+ "/") = _).
      rewrite !List.filter_app. cbn. by rewrite app_nil_r.
    + rewrite split_sep_app. apply List.filter_app.
Qed.

(** A call that returned has made its path, and every directory on the
    way, a directory. *)
Lemma mkdir_walk_creates ok pre rest fs fs1 k :
  mkdir_walk ok pre rest fs = (inr tt, fs1) →
  0 < k ≤ length rest →
  fs1 !! (pre ++ take k rest) = Some Dir.
Proof.
  unfold FS in *.
  revert pre fs k. induction rest as [|c rest' IH]; intros pre fs k Hw Hk.
  - cbn in Hk. lia.
  - assert (∀ fs0, mkdir_walk ok (pre ++ [c]) rest' fs0 = (inr tt, fs1) →
                   fs0 !! (pre ++ [c]) = Some Dir →
                   fs1 !! (pre ++ take k (c :: rest')) = Some Dir) as Hgo.
    { intros fs0 Hw0 Hp0. destruct k as [|k]; [lia|]. cbn [take].
      destruct k as [|k].
      - rewrite take_0.
        pose proof (mkdir_walk_mono ok (pre ++ [c]) rest' fs0) as Hm.
        rewrite Hw0 in Hm. exact (lookup_weaken _ _ _ _ Hp0 Hm).
      - rewrite (cons_middle c), app_assoc.
        apply (IH _ fs0); [done|]. cbn [length] in Hk. lia. }
    destruct (fs !! (pre ++ [c])) as [[|]|] eqn:Hp.
    + rewrite (mkdir_walk_dir _ _ _ _ fs Hp) in Hw. by apply (Hgo fs).
    + rewrite (mkdir_walk_file _ _ _ _ fs Hp) in Hw. discriminate Hw.
    + rewrite (mkdir_walk_missing _ _ _ _ fs Hp) in Hw.
      destruct rest' as [|c' rest''].
      * injection Hw as <-. cbn [length] in Hk.
        assert (k = 1) as -> by lia. cbn. apply lookup_insert_eq.
      * apply (Hgo (<[pre ++ [c] := Dir]> fs)); [done|].
        apply lookup_insert_eq.
Qed.

Lemma makedirs_creates name ok fs fs1 :
  makedirs name ok fs = (inr tt, fs1) →
  resolve name ≠ [] →
  fs1 !! resolve name = Some Dir.
Proof.
  unfold makedirs. case_bool_decide; [done|]. intros Hw Hne.
  pose proof (mkdir_walk_creates ok [] (resolve name) fs fs1
                (length (resolve name)) Hw) as Hc.
  rewrite firstn_all in Hc. apply Hc.
  destruct (resolve name); [done|]. cbn. lia.
Qed.

(** What [os.makedirs] raises is an [Exception] that prints. *)
Lemma mkdir_walk_raises ok pre rest fs e :
  (mkdir_walk ok pre rest fs).1 = inl e →
  is_Exception e = true ∧ ∃ msg, exn_str e = inr msg.
Proof.
  revert pre fs. induction rest as [|c rest' IH]; intros pre fs.
  - cbn. destruct ok; [done|]. intros [= <-]. split; [done|by eexists].
  - destruct (fs !! (pre ++ [c])) as [[|]|] eqn:Hp.
    + rewrite (mkdir_walk_dir _ _ _ _ fs Hp). apply IH.
    + rewrite (mkdir_walk_file _ _ _ _ fs Hp). cbn [fst].
      destruct rest'; intros [= <-]; (split; [done|by eexists]).
    + rewrite (mkdir_walk_missing _ _ _ _ fs Hp).
      destruct rest' as [|c' rest'']; [done|]. apply IH.
Qed.

Lemma makedirs_raises name ok fs e :
  (makedirs name ok fs).1 = inl e →
  is_Exception e = true ∧ ∃ msg, exn_str e = inr msg.
Proof.
  unfold makedirs. case_bool_decide.
  - intros [= <-]. split; [done|by eexists].
  - apply mkdir_walk_raises.
Qed.

(** ** More about the executor and the dispatcher *)

Section Coverage.

Context {obj E : Type}.
Implicit Types (env : environment obj E) (w : world E).
Implicit Types (items : list string) (sched : list nat).

(** The components of the item's three directories, for an item name
    that is not an absolute path. *)
Lemma resolve_workspace ads_name base_dir sub :
  startswith_sep ads_name = false → startswith_sep sub = false →
  resolve (os_path_join (ads_dir ads_name base_dir) sub)
  = (resolve base_dir ++ resolve ads_name) ++ resolve sub.
Proof.
  intros Ha Hs. unfold ads_dir. by rewrite !resolve_os_path_join.
Qed.

(** X1. When the workspace setup returns, for an item name that is not an
    absolute path, the three directories [Screening_Data],
    [NEB_Translation] and [NEB_Rotation] exist as directories under
    [base_dir/ads_name]; every entry the file system had is still there
    unchanged, and nothing was printed. *)
Theorem workspace_setup_creates env ads_name base_dir w :
  startswith_sep ads_name = false →
  outcome (exec env (workspace_setup ads_name base_dir (Ret tt)) w) = inr tt →
  let w' := final (exec env (workspace_setup ads_name base_dir (Ret tt)) w) in
  let root := resolve base_dir ++ resolve ads_name in
  fs w' !! (root ++ ["Screening_Data"]) = Some Dir ∧
  fs w' !! (root ++ ["NEB_Translation"]) = Some Dir ∧
  fs w' !! (root ++ ["NEB_Rotation"]) = Some Dir ∧
  fs w ⊆ fs w' ∧ stdout w' = stdout w ∧ ext w' = ext w.
Proof.
  intros Ha. unfold workspace_setup. cbv zeta.
  pose proof (resolve_workspace ads_name base_dir "Screening_Data" Ha eq_refl)
    as R1.
  pose proof (resolve_workspace ads_name base_dir "NEB_Translation" Ha eq_refl)
    as R2.
  pose proof (resolve_workspace ads_name base_dir "NEB_Rotation" Ha eq_refl)
    as R3.
  change (resolve "Screening_Data") with ["Screening_Data"] in R1.
  change (resolve "NEB_Translation") with ["NEB_Translation"] in R2.
  change (resolve "NEB_Rotation") with ["NEB_Rotation"] in R3.
  unfold ads_dir in R1, R2, R3.
  set (d1 := os_path_join _ "Screening_Data") in *.
  set (d2 := os_path_join _ "NEB_Translation") in *.
  set (d3 := os_path_join _ "NEB_Rotation") in *.
  cbn [exec]. rewrite handle_makedirs.
  destruct (makedirs d1 true (fs w)) as [[e1|[]] fs1] eqn:H1; [done|].
  cbn [exec fst snd fs stdout ext]. rewrite handle_makedirs.
  cbn [fst snd fs stdout ext].
  destruct (makedirs d2 true fs1) as [[e2|[]] fs2] eqn:H2; [done|].
  cbn [exec fst snd fs stdout ext]. rewrite handle_makedirs.
  cbn [fst snd fs stdout ext].
  destruct (makedirs d3 true fs2) as [[e3|[]] fs3] eqn:H3; [done|].
  cbn [exec fst snd fs stdout ext outcome final]. intros _.
  pose proof (makedirs_mono d1 true (fs w)) as M1. rewrite H1 in M1.
  pose proof (makedirs_mono d2 true fs1) as M2. rewrite H2 in M2.
  pose proof (makedirs_mono d3 true fs2) as M3. rewrite H3 in M3.
  cbn [snd] in M1, M2, M3.
  apply makedirs_creates in H1; [|rewrite R1; by intros [_ [=]]%app_nil].
  apply makedirs_creates in H2; [|rewrite R2; by intros [_ [=]]%app_nil].
  apply makedirs_creates in H3; [|rewrite R3; by intros [_ [=]]%app_nil].
  rewrite R1 in H1. rewrite R2 in H2. rewrite R3 in H3.
  split; [exact (lookup_weaken _ _ _ _ H1 (transitivity M2 M3))|].
  split; [exact (lookup_weaken _ _ _ _ H2 M3)|].
  split; [exact H3|].
  split; [exact (transitivity M1 (transitivity M2 M3))|]. done.
Qed.

(** X2. When [os.makedirs] fails for the item's screening directory (a
    regular file is in the way), the executor calls no collaborator: its
    only other call is the [print] of the item's name with the error.
    It returns [(ads_name, None)] when the line can be printed, and
    raises what [print] raises otherwise. *)
Theorem executor_setup_failure env ads_name base_dir w e :
  (makedirs (screening_dir ads_name base_dir) true (fs w)).1 = inl e →
  let r := exec env (run_adsorbate_pipeline ads_name base_dir) w in
  ∃ msg,
    exn_str e = inr msg ∧
    ev_call <$> trace r
    = [os_makedirs (screening_dir ads_name base_dir) true;
       print (error_line ads_name msg)] ∧
    match stdout_error w with
    | None =>
        outcome r = inr (ads_name, None) ∧
        last (stdout (final r)) = Some (error_line ads_name msg)
    | Some e' =>
        outcome r = inl e' ∧ stdout (final r) = stdout w
    end.
Proof.
  intros He. destruct (makedirs_raises _ _ _ _ He) as (Hexc & msg & Hmsg).
  exists msg. split; [done|].
  unfold run_adsorbate_pipeline, screening_dir, ads_dir in *. cbv zeta.
  cbn [exec]. rewrite handle_makedirs, He, Hexc, Hmsg.
  cbn [exec handle]. unfold py_print. cbn [stdout_error].
  destruct (stdout_error w) as [e'|].
  - cbn [outcome final trace fst snd stdout app fmap list_fmap ev_call].
    done.
  - cbn [outcome final trace fst snd stdout app fmap list_fmap ev_call
         exec].
    split; [done|]. split; [done|]. apply last_snoc.
Qed.

(** X3. A given number of processes below 1 makes the dispatcher raise
    [ValueError], after it has created [base_dir] and printed the
    announcement; no worker runs.  When the announcement cannot be
    printed, the dispatcher raises what [print] raises instead. *)
Theorem dispatch_rejects_worker_count_below_1 env sched items base_dir n w :
  (n < 1)%Z →
  (makedirs base_dir true (fs w)).1 = inr tt →
  run_adsorbate_list_parallel env sched items base_dir (Some n) w
  = match stdout_error w with
    | None =>
        (inl (Raises (ValueError "Number of processes must be at least 1")),
         World (makedirs base_dir true (fs w)).2
           (stdout w ++ [nl +:+ ">>> Running " +:+ pretty (length items)
                            +:+ " adsorbates on " +:+ pretty n
                            +:+ " cores <<<"])
           None (ext w))
    | Some e =>
        (inl (Raises e),
         World (makedirs base_dir true (fs w)).2 (stdout w) (Some e) (ext w))
    end.
Proof.
  intros Hn Hmk.
  unfold run_adsorbate_list_parallel, dispatch_setup, proc_bind, proc_ret,
    proc_call.
  rewrite handle_makedirs, Hmk. cbn [handle]. unfold py_print.
  cbn [fs stdout stdout_error ext].
  destruct (stdout_error w) as [e|]; [done|].
  unfold pool_map. by rewrite bool_decide_true.
Qed.

(** X4. When [os.makedirs(base_dir)] fails, the dispatcher raises that
    exception: nothing is printed, the CPU count is not asked for and no
    worker runs. *)
Theorem dispatch_base_dir_failure env sched items base_dir n_cores w e :
  (makedirs base_dir true (fs w)).1 = inl e →
  run_adsorbate_list_parallel env sched items base_dir n_cores w
  = (inl (Raises e),
     World (makedirs base_dir true (fs w)).2 (stdout w) (stdout_error w)
       (ext w)).
Proof.
  intros Hmk.
  unfold run_adsorbate_list_parallel, dispatch_setup, proc_bind, proc_ret,
    proc_call.
  by rewrite handle_makedirs, Hmk.
Qed.

(** X5. For every list of names, empty or with duplicates: the keys of
    the returned dictionary are the names of the list, a name that is not
    in the list has no entry, and distinct names give as many entries as
    names. *)
Theorem dispatch_keys_any_list env sched items base_dir n_cores w results w' :
  run_adsorbate_list_parallel env sched items base_dir n_cores w
  = (inr results, w') →
  dom results = list_to_set items ∧
  (∀ x, x ∉ items → results !! x = None) ∧
  (NoDup items → size results = length items).
Proof.
  intros Hrun.
  apply dispatch_inr in Hrun as (n & w1 & rl & Hsetup & Hmap & ->).
  pose proof (pool_map_names _ _ _ _ _ _ _ _ Hmap) as Hnames.
  assert (dom (to_dict rl) = list_to_set items) as Hdom
    by by rewrite to_dict_dom, Hnames.
  split; [done|]. split.
  - intros x Hx. apply not_elem_of_dom. rewrite Hdom.
    by rewrite elem_of_list_to_set.
  - intros Hnd. rewrite <- size_dom, Hdom. by apply size_list_to_set.
Qed.

(** X6. Failure isolation stops at the executor.  When an item raises
    past the executor, the dispatcher returns no dictionary, whatever
    the other items did: it never returns if the exception is not an
    [Exception] (the worker is killed and [pool.map] waits for its
    chunk for ever), and if it raises, it raises an [Exception] that
    some item raised. *)
Theorem dispatch_worker_raise_fails_batch env sched items base_dir n_cores w
    n w1 i t e :
  let worker := λ a, run_adsorbate_pipeline (obj:=obj) a base_dir in
  dispatch_setup env items base_dir n_cores w = (inr n, w1) →
  (1 ≤ n)%Z →
  (pool_run env n sched worker items w1).1 !! i = Some (t, inl (Raised e)) →
  ∃ f, (run_adsorbate_list_parallel env sched items base_dir n_cores w).1
       = inl f ∧
       (is_Exception e = false → f = Blocks) ∧
       ∀ e', f = Raises e' →
         is_Exception e' = true ∧
         ∃ j t', (pool_run env n sched worker items w1).1 !! j
                 = Some (t', inl (Raised e')).
Proof.
  intros worker Hsetup Hn Hi.
  unfold run_adsorbate_list_parallel, proc_bind, proc_ret.
  rewrite Hsetup. fold worker.
  destruct (pool_map_raised env n sched worker items w1 e Hn)
    as (f & Hf & Hblocks & Hraises).
  { exists t. apply list_elem_of_lookup. by exists i. }
  destruct (pool_map env n sched worker items w1) as [o w2].
  cbn [fst] in Hf. subst o. exists f. split; [done|]. split; [done|].
  intros e' He'. destruct (Hraises e' He') as [Hexc [t' Hin]].
  split; [done|]. apply list_elem_of_lookup in Hin as [j Hj]. by exists j, t'.
Qed.

End Coverage.

Section Coverage2.

Context {obj E : Type}.
Implicit Types (env : environment obj E) (w : world E).
Implicit Types (items : list string) (sched : list nat).

(** X7. In every run of the executor, a directory handed to a
    collaborator as its working directory was created before, in the same
    run, by an [os.makedirs(..., exist_ok=True)] call that returned. *)
Theorem workdir_created_before_use env ads_name base_dir w :
  let t := trace (exec env (run_adsorbate_pipeline ads_name base_dir) w) in
  ∀ i c r dir,
    t !! i = Some (Ev c r) →
    workdir_arg c = Some dir →
    ∃ j, j < i ∧ t !! j = Some (Ev (os_makedirs dir true) (inr VNone)).
Proof.
  cbv zeta. by_wp. executor_cases.
  all: intros i c r dir Hi Hdir.
  all: lookup_cases i Hi; subst; try discriminate Hdir.
  all: injection Hdir as <-.
  all: first [ by exists 0; split; [lia|]
             | by exists 1; split; [lia|]
             | by exists 2; split; [lia|] ].
Qed.

(** X8. In every run of the executor, every path given to any call is one
    of the item's three directories or the results file in the screening
    directory, every [os.makedirs] has [exist_ok=True], and the CPU count
    is never asked for. *)
Theorem executor_stays_in_workspace env ads_name base_dir w :
  let t := trace (exec env (run_adsorbate_pipeline ads_name base_dir) w) in
  ∀ c, c ∈ ev_call <$> t →
    c ≠ mp_cpu_count ∧
    (∀ name exist_ok, c = os_makedirs name exist_ok → exist_ok = true) ∧
    ∀ p, p ∈ path_args c →
      p ∈ [screening_dir ads_name base_dir;
           neb_trans_dir ads_name base_dir;
           neb_rot_dir ads_name base_dir;
           os_path_join (screening_dir ads_name base_dir)
             "screening_results.pkl"].
Proof.
  cbv zeta. by_wp. executor_cases.
  all: intros c Hin; cbn [fmap list_fmap ev_call] in Hin; in_cases; subst c.
  all: split; [discriminate|]; split;
       [ intros name exist_ok Heq; try discriminate Heq;
         by injection Heq as _ <-
       | intros p Hp; cbn [path_args workdir_arg] in Hp; in_cases; subst p;
         solve [in_list] ].
Qed.

(** X9. In every run of the executor, the rotation endpoints are selected
    only after the translation path search has returned: when the
    translation path search raises, the rotation is never attempted. *)
Theorem rotation_only_after_translation env ads_name base_dir w :
  let t := trace (exec env (run_adsorbate_pipeline ads_name base_dir) w) in
  ∀ i best_site sr angle r,
    t !! i = Some (Ev (select_neb_endpoints_rotation best_site sr angle) r) →
    ∃ j ep1 ep2 images result,
      j < i ∧
      t !! j = Some (Ev (prepare_neb_calculation ep1 ep2 10 "translation"
                           (neb_trans_dir ads_name base_dir))
                        (inr (VTuple images result))).
Proof.
  cbv zeta. by_wp. executor_cases.
  all: intros i best_site sr angle r Hi.
  all: lookup_cases i Hi.
  all: exists 14; eexists _, _, _, _; split; [lia|reflexivity].
Qed.

End Coverage2.


Section Coverage3.

Context {obj E : Type}.
Implicit Types (env : environment obj E) (w : world E).
Implicit Types (items : list string) (sched : list nat).




End Coverage3.

(** ** Witnesses of the further properties *)

Lemma workspace_setup_creates_witness :
  let w' := final (exec (mock no_fault)
                     (workspace_setup "CO" "Adsorbates" (Ret tt)) w0) in
  let root := resolve "Adsorbates" ++ resolve "CO" in
  fs w' !! (root ++ ["Screening_Data"]) = Some Dir ∧
  fs w' !! (root ++ ["NEB_Translation"]) = Some Dir ∧
  fs w' !! (root ++ ["NEB_Rotation"]) = Some Dir ∧
  fs w0 ⊆ fs w' ∧ stdout w' = stdout w0 ∧ ext w' = ext w0.
Proof.
  apply (workspace_setup_creates (mock no_fault) "CO" "Adsorbates" w0).
  - reflexivity.
  - vm_compute. reflexivity.
Defined.

Lemma executor_setup_failure_witness :
  let r := exec (mock no_fault) (run_adsorbate_pipeline "CO" "Adsorbates")
             w_blocked in
  ∃ msg,
    exn_str (NotADirectoryError "Adsorbates/CO") = inr msg ∧
    ev_call <$> trace r
    = [os_makedirs (screening_dir "CO" "Adsorbates") true;
       print (error_line "CO" msg)] ∧
    outcome r = inr ("CO", None) ∧
    last (stdout (final r)) = Some (error_line "CO" msg).
Proof.
  apply (executor_setup_failure (mock no_fault) "CO" "Adsorbates" w_blocked
           (NotADirectoryError "Adsorbates/CO")).
  vm_compute. reflexivity.
Defined.

Lemma dispatch_rejects_worker_count_below_1_witness :
  run_adsorbate_list_parallel (mock no_fault) [] ["X1"; "X2"] "Adsorbates"
    (Some 0%Z) w0
  = (inl (Raises (ValueError "Number of processes must be at least 1")),
     World (makedirs "Adsorbates" true (fs w0)).2
       (stdout w0 ++ [nl +:+ ">>> Running " +:+ pretty (length ["X1"; "X2"])
                         +:+ " adsorbates on " +:+ pretty 0%Z
                         +:+ " cores <<<"])
       None (ext w0)).
Proof.
  apply (dispatch_rejects_worker_count_below_1 (mock no_fault) []
           ["X1"; "X2"] "Adsorbates" 0 w0).
  - lia.
  - vm_compute. reflexivity.
Defined.

Lemma dispatch_base_dir_failure_witness :
  run_adsorbate_list_parallel (mock no_fault) [] ["X1"; "X2"] "Adsorbates"
    None w_blocked
  = (inl (Raises (FileExistsError "Adsorbates")),
     World (makedirs "Adsorbates" true (fs w_blocked)).2 (stdout w_blocked)
       (stdout_error w_blocked) (ext w_blocked)).
Proof.
  apply (dispatch_base_dir_failure (mock no_fault) [] ["X1"; "X2"]
           "Adsorbates" None w_blocked (FileExistsError "Adsorbates")).
  vm_compute. reflexivity.
Defined.

Lemma dispatch_keys_any_list_witness :
  let r := run_adsorbate_list_parallel counting [] ["A"; "A"] "Adsorbates"
             (Some 2%Z) (World ∅ [] None 0) in
  dom (returned_dict r.1) = list_to_set ["A"; "A"] ∧
  (∀ x, x ∉ ["A"; "A"] → returned_dict r.1 !! x = None) ∧
  (NoDup ["A"; "A"] → size (returned_dict r.1) = length ["A"; "A"]).
Proof.
  cbv zeta.
  apply (dispatch_keys_any_list counting [] ["A"; "A"] "Adsorbates"
           (Some 2%Z) (World ∅ [] None 0) _
           (run_adsorbate_list_parallel counting [] ["A"; "A"] "Adsorbates"
              (Some 2%Z) (World ∅ [] None 0)).2).
  vm_compute. reflexivity.
Defined.

Lemma dispatch_worker_raise_fails_batch_witness :
  (run_adsorbate_list_parallel (mock x2_interrupted) [1; 0; 1]
     ["X1"; "X2"] "Adsorbates" (Some 2%Z) w0).1 = inl Blocks.
Proof.
  destruct (dispatch_worker_raise_fails_batch (mock x2_interrupted) [1; 0; 1]
              ["X1"; "X2"] "Adsorbates" (Some 2%Z) w0 2%Z
              (dispatch_setup (mock x2_interrupted) ["X1"; "X2"] "Adsorbates"
                 (Some 2%Z) w0).2
              1
              (trace (exec (mock x2_interrupted)
                        (run_adsorbate_pipeline "X2" "Adsorbates") w0))
              (Exn KeyboardInterrupt ""))
    as (f & Hf & Hblocks & _).
  - vm_compute. reflexivity.
  - lia.
  - vm_compute. reflexivity.
  - rewrite Hf. f_equal. by apply Hblocks.
Defined.

Lemma workdir_created_before_use_witness :
  let t := trace (exec (mock no_fault)
                    (run_adsorbate_pipeline "CO" "Adsorbates") w0) in
  ∃ j, j < 7 ∧
       t !! j = Some (Ev (os_makedirs "Adsorbates/CO/Screening_Data" true)
                         (inr VNone)).
Proof.
  apply (workdir_created_before_use (mock no_fault) "CO" "Adsorbates" w0 7
           (site_screening "slab" "relaxed:mol:CO" "site" true
              "Adsorbates/CO/Screening_Data")
           (inr (VObj "raw"))).
  - vm_compute. reflexivity.
  - reflexivity.
Defined.

Lemma executor_stays_in_workspace_witness :
  let c : call string :=
    load_screening_results
      "Adsorbates/CO/Screening_Data/screening_results.pkl" in
  c ≠ mp_cpu_count ∧
  (∀ name exist_ok, c = os_makedirs name exist_ok → exist_ok = true) ∧
  ∀ p, p ∈ path_args c →
    p ∈ [screening_dir "CO" "Adsorbates";
         neb_trans_dir "CO" "Adsorbates";
         neb_rot_dir "CO" "Adsorbates";
         os_path_join (screening_dir "CO" "Adsorbates")
           "screening_results.pkl"].
Proof.
  apply (executor_stays_in_workspace (mock no_fault) "CO" "Adsorbates" w0).
  vm_compute. do 11 apply list_elem_of_further. apply list_elem_of_here.
Defined.

Lemma rotation_only_after_translation_witness :
  let t := trace (exec (mock no_fault)
                    (run_adsorbate_pipeline "CO" "Adsorbates") w0) in
  ∃ j ep1 ep2 images result,
    j < 15 ∧
    t !! j = Some (Ev (prepare_neb_calculation ep1 ep2 10 "translation"
                         (neb_trans_dir "CO" "Adsorbates"))
                      (inr (VTuple images result))).
Proof.
  apply (rotation_only_after_translation (mock no_fault) "CO" "Adsorbates" w0
           15 ("best:" +:+ "pickle:Adsorbates/CO/Screening_Data/screening_results.pkl")
           "pickle:Adsorbates/CO/Screening_Data/screening_results.pkl" 120
           (inr (VTuple "r1" "r2"))).
  vm_compute. reflexivity.
Defined.

